(** * Conversation reconstruction engine of [find_conversations.py]

    A shallow embedding of the log loader, the winning-path resolver, the
    turn aggregator, the enrichment step and the markdown renderer, with
    the properties of the engine stated and proved over it.

    Conventions of the embedding.
    - A log record is a Python dict obtained from one JSON line.  It is
      modelled by the record [RawRecord]; a field is [None] when the key is
      absent, and holds the string (or payload) otherwise.
    - Python truthiness of an optional string ([r.get('uuid')]) is
      [get_truthy]: [None] and the empty string are falsy.
    - dicts used as maps are [gmap]s, Python sets are [gset]s.
    - the only loop that may not terminate ([while current:] in
      [find_winning_path]) takes a fuel argument; running out of fuel is the
      outcome [OutOfFuel], never confused with a returned value. *)

From Stdlib Require Import Ascii.
From stdpp Require Import base option list relations sorting gmap strings pretty.

(** ** Data model *)

(** [msg.get('role')]. *)
Inductive Role := RoleUser | RoleAssistant | RoleOther.

#[global] Instance Role_eq_dec : EqDecision Role.
Proof. solve_decision. Defined.

(** One option of an interactive question. *)
Record QOption := { label : string; opt_description : string }.

(** One question of an [AskUserQuestion] invocation. *)
Record Question := { question : string; options : list QOption }.

(** The [input] dict of a tool invocation; a key that is absent reads as
    the default the code passes to [.get] (the empty string, the empty
    list). *)
Record ToolInput := {
  file_path : string;
  content : string;
  query : string;
  url : string;
  description : string;
  command : string;
  pattern : string;
  questions : list Question
}.

(** An element of a tool result's [content] list: a dict of type [text], or
    anything else. *)
Inductive ResultItem :=
  | RText (text : string)
  | ROtherItem.

(** [part.get('content', '')] of a tool result. *)
Inductive ResultContent :=
  | RStr (s : string)
  | RList (items : list ResultItem)
  | ROther.

(** One element of a message's [content] list.  [POther] stands for a dict
    of another type (a thinking block) and for an element that is not a
    dict: the code treats the two alike everywhere. *)
Inductive Part :=
  | PText (text : string)
  | PToolUse (id name : string) (input : ToolInput)
  | PToolResult (tool_use_id : string) (result : ResultContent)
  | POther.

(** [msg.get('content')]: a string, a list of parts, or absent. *)
Inductive Content :=
  | CStr (s : string)
  | CList (parts : list Part)
  | CNone.

Record Message := { role : Role; msg_content : Content }.

Record RawRecord := {
  uuid : option string;
  parentUuid : option string;
  timestamp : option string;
  sessionId : option string;
  cwd : option string;
  requestId : option string;
  isMeta : bool;
  message : option Message
}.

(** Python truthiness of [d.get(k)] for a string-valued key. *)
Definition get_truthy (o : option string) : option string :=
  match o with
  | Some s => if decide (s = "") then None else Some s
  | None => None
  end.

(** Outcome of a computation that has a loop bounded by fuel. *)
Inductive run (A : Type) :=
  | OutOfFuel
  | Done (a : A).
Arguments OutOfFuel {A}.
Arguments Done {A} a.

(** ** Winning-path resolver *)

(** [list.sort(key=...)]: a stable sort on string keys.  Insertion of [x]
    goes after every element whose key is not greater. *)
Section sort.
Context {A : Type} (key : A → string).

Fixpoint insert_by_key (x : A) (l : list A) : list A :=
  match l with
  | [] => [x]
  | y :: l' =>
      if String.leb (key y) (key x) then y :: insert_by_key x l'
      else x :: l
  end.

Definition sort_by_key (l : list A) : list A :=
  foldl (λ acc x, insert_by_key x acc) [] l.
End sort.

(** [{r['uuid']: r for r in all_records if r.get('uuid')}]: later records
    overwrite earlier ones with the same id. *)
Definition by_uuid_of (all_records : list RawRecord) : gmap string RawRecord :=
  foldl (λ m r, match get_truthy (uuid r) with
                | Some u => <[u := r]> m
                | None => m
                end) ∅ all_records.

(** [{r['parentUuid'] for r in all_records if r.get('parentUuid')}]. *)
Definition parent_uuids_of (all_records : list RawRecord) : gset string :=
  list_to_set (omap (λ r, get_truthy (parentUuid r)) all_records).

Definition is_terminal (parent_uuids : gset string) (r : RawRecord) : Prop :=
  match get_truthy (uuid r) with
  | Some u => u ∉ parent_uuids
  | None => False
  end.

#[global] Instance is_terminal_dec ps r : Decision (is_terminal ps r).
Proof. unfold is_terminal. destruct (get_truthy (uuid r)); apply _. Defined.

(** [[r for r in all_records if r.get('uuid') and r['uuid'] not in parent_uuids]]. *)
Definition terminals_of (all_records : list RawRecord) : list RawRecord :=
  filter (is_terminal (parent_uuids_of all_records)) all_records.

(** [r.get('timestamp', '')]. *)
Definition timestamp_key (r : RawRecord) : string := default "" (timestamp r).

(** [terminals.sort(key=...); terminals[-1]]. *)
Definition latest_terminal_of (all_records : list RawRecord) : option RawRecord :=
  last (sort_by_key timestamp_key (terminals_of all_records)).

(** The [while current:] loop. *)
Fixpoint walk (fuel : nat) (by_uuid : gmap string RawRecord)
    (current : option string) (winning_uuids : gset string)
    : run (gset string) :=
  match fuel with
  | 0 => OutOfFuel
  | S fuel' =>
      match get_truthy current with
      | None => Done winning_uuids
      | Some c =>
          let winning_uuids := {[c]} ∪ winning_uuids in
          match by_uuid !! c with
          | None => Done winning_uuids
          | Some rec => walk fuel' by_uuid (parentUuid rec) winning_uuids
          end
      end
  end.

(** [find_winning_path]: [Done None] is the Python [None]. *)
Definition find_winning_path (fuel : nat) (all_records : list RawRecord)
    : run (option (gset string)) :=
  let by_uuid := by_uuid_of all_records in
  if decide (by_uuid = ∅) then Done None
  else
    match latest_terminal_of all_records with
    | None => Done None
    | Some latest_terminal =>
        match walk fuel by_uuid (uuid latest_terminal) ∅ with
        | OutOfFuel => OutOfFuel
        | Done winning_uuids => Done (Some winning_uuids)
        end
    end.

(** ** Filtering to the winning path ([parse_conversation], first loop) *)

(** Truthiness of [winning_uuids]: neither [None] nor the empty set. *)
Definition winning_truthy (winning_uuids : option (gset string)) : option (gset string) :=
  match winning_uuids with
  | Some s => if decide (s = ∅) then None else Some s
  | None => None
  end.

(** The record is appended to [raw_records]. *)
Definition kept (winning_uuids : option (gset string)) (record : RawRecord) : bool :=
  match message record with
  | None => false
  | Some _ =>
      if isMeta record then false
      else
        match winning_truthy winning_uuids, get_truthy (uuid record) with
        | Some s, Some u => bool_decide (u ∈ s)
        | _, _ => true
        end
  end.

Definition raw_records_of (winning_uuids : option (gset string))
    (all_records : list RawRecord) : list RawRecord :=
  filter (λ r, kept winning_uuids r = true) all_records.

(** ** Strings

    A Python [str] is modelled by [string], one [ascii] per character: a
    character is a code point below 256.  The character classes of
    [str.strip], [str.lower] and [str.splitlines] are those of Python on
    these code points. *)

(** Characters removed by [str.strip()]: the white space of Python below
    256, which is the ASCII one, the next-line character U+0085 and the
    no-break space U+00A0. *)
Definition py_isspace (c : ascii) : bool :=
  match c with
  | "009" | "010" | "011" | "012" | "013"
  | "028" | "029" | "030" | "031" | " "
  | "133" | "160" => true
  | _ => false
  end%char.

Fixpoint lstrip (s : string) : string :=
  match s with
  | String c s' => if py_isspace c then lstrip s' else s
  | EmptyString => EmptyString
  end.

Definition rstrip (s : string) : string := String.rev (lstrip (String.rev s)).

(** [s.strip()]. *)
Definition strip (s : string) : string := rstrip (lstrip s).

(** [s.startswith(p)]. *)
Definition startswith (s p : string) : bool := String.prefix p s.

(** [s.find(needle)], counted from [i]. *)
Fixpoint find_from (needle s : string) (i : nat) : option nat :=
  if String.prefix needle s then Some i
  else match s with
       | String _ s' => find_from needle s' (S i)
       | EmptyString => None
       end.

Definition find (s needle : string) : option nat := find_from needle s 0.

(** [needle in s]. *)
Definition contains (s needle : string) : bool := bool_decide (is_Some (find s needle)).

(** The lower case of a character below 256: the capital letters are A to
    Z and U+00C0 to U+00DE, the multiplication sign U+00D7 apart, and the
    small letter is 32 further in each case. *)
Definition lower_char (c : ascii) : ascii :=
  let n := nat_of_ascii c in
  if bool_decide (65 ≤ n ≤ 90 ∨ (192 ≤ n ≤ 222 ∧ n ≠ 215))
  then ascii_of_nat (n + 32) else c.

(** [s.lower()]. *)
Fixpoint lower (s : string) : string :=
  match s with
  | String c s' => String (lower_char c) (lower s')
  | EmptyString => EmptyString
  end.

(** [s[:n]] and [s[n:]]. *)
Fixpoint take_str (n : nat) (s : string) : string :=
  match n, s with
  | S n', String c s' => String c (take_str n' s')
  | _, _ => EmptyString
  end.

Fixpoint drop_str (n : nat) (s : string) : string :=
  match n, s with
  | S n', String _ s' => drop_str n' s'
  | _, _ => s
  end.

(** [sep.join(l)]. *)
Fixpoint join (sep : string) (l : list string) : string :=
  match l with
  | [] => ""
  | [x] => x
  | x :: l' => x +:+ sep +:+ join sep l'
  end.

(** [s.count(c)] for a one-character [c]. *)
Fixpoint count_char (c : ascii) (s : string) : nat :=
  match s with
  | String d s' => (if decide (d = c) then 1 else 0) + count_char c s'
  | EmptyString => 0
  end.

(** [s.split(c)] for a one-character separator: never the empty list. *)
Fixpoint split_char (c : ascii) (s : string) : list string :=
  match s with
  | EmptyString => [""]
  | String d s' =>
      if decide (d = c) then "" :: split_char c s'
      else match split_char c s' with
           | x :: l => String d x :: l
           | [] => [String d ""]
           end
  end.

(** [s.replace(a, b)] for one-character [a] and [b]. *)
Fixpoint replace_char (a b : ascii) (s : string) : string :=
  match s with
  | String d s' => String (if decide (d = a) then b else d) (replace_char a b s')
  | EmptyString => EmptyString
  end.

Definition newline : ascii := "010"%char.
Definition nl : string := String newline "".

(** ** Message significance filter *)

Definition is_meaningful (text : string) : bool :=
  let text := strip text in
  if decide (text = "") then false
  else if startswith text "<command-name>" then false
  else if startswith text "<local-command-stdout>" then false
  else if startswith text "[Request interrupted" then false
  else true.

(** ** Enrichment: annotations and answers *)

(** The double quote character. *)
Definition quote : ascii := "034"%char.

Section environment.
(** [str(Path.home())], and [urlparse(url).netloc + urlparse(url).path]
    of the standard library. *)
Context (home : string) (netloc_path : string → string).

Definition shorten_path (file_path : string) : string :=
  if decide (file_path = "") then ""
  else if startswith file_path home
       then "~" +:+ drop_str (String.length home) file_path
       else file_path.

(** [None] is the Python [None] returned for [AskUserQuestion]. *)
Definition generate_tool_annotation (name : string) (inp : ToolInput)
    : option string :=
  if decide (name = "Read") then Some ("Read: " +:+ shorten_path (file_path inp))
  else if decide (name = "Write") then Some ("Wrote: " +:+ shorten_path (file_path inp))
  else if decide (name = "Edit") then Some ("Edited: " +:+ shorten_path (file_path inp))
  else if decide (name = "WebSearch")
    then Some ("Searched web: " +:+ String quote (query inp) +:+ String quote "")
  else if decide (name = "WebFetch") then Some ("Fetched: " +:+ netloc_path (url inp))
  else if decide (name = "Task") then Some ("Launched agent: " +:+ description inp)
  else if decide (name = "Bash") then
    let desc := description inp in
    let cmd := command inp in
    let label := if decide (desc = "") then
                   take_str 60 cmd +:+ (if decide (60 < String.length cmd) then "..." else "")
                 else desc in
    Some ("Ran: `" +:+ label +:+ "`")
  else if decide (name = "Glob") then Some ("Found files: " +:+ pattern inp)
  else if decide (name = "Grep")
    then Some ("Searched code: " +:+ String quote (pattern inp) +:+ String quote "")
  else if decide (name = "EnterPlanMode") then Some "Entered plan mode"
  else if decide (name = "ExitPlanMode") then Some "Exited plan mode"
  else if decide (name = "AskUserQuestion") then None
  else Some ("Used tool: " +:+ name).
End environment.

(** The run of characters up to the next double quote, and what follows
    that quote; [None] when there is no quote. *)
Fixpoint until_quote (s : string) : option (string * string) :=
  match s with
  | EmptyString => None
  | String c s' =>
      if decide (c = quote) then Some ("", s')
      else match until_quote s' with
           | Some (g, rest) => Some (String c g, rest)
           | None => None
           end
  end.

(** The pattern of [parse_ask_answer] is: a quote, a group of non-quote
    characters, a quote, an equals sign, a quote, a second group of
    non-quote characters, a quote.  [match_pair] is a match whose opening
    quote has just been read: the two groups and the text after the match. *)
Definition match_pair (s : string) : option (string * string * string) :=
  match until_quote s with
  | Some (g1, String "="%char (String c rest)) =>
      if decide (c = quote) then
        match until_quote rest with
        | Some (g2, rest') => Some (g1, g2, rest')
        | None => None
        end
      else None
  | _ => None
  end.

(** [re.findall] of that pattern: leftmost matches, each search resuming
    after the previous match.  Every call consumes a character,
    so [String.length s] steps suffice. *)
Fixpoint findall_go (steps : nat) (s : string) : list (string * string) :=
  match steps, s with
  | S steps', String c s' =>
      if decide (c = quote) then
        match match_pair s' with
        | Some (g1, g2, rest) => (g1, g2) :: findall_go steps' rest
        | None => findall_go steps' s'
        end
      else findall_go steps' s'
  | _, _ => []
  end.

Definition findall_pairs (s : string) : list (string * string) :=
  findall_go (String.length s) s.

(** The loop over the two boilerplate markers. *)
Definition trim_marker (after marker : string) : string :=
  match find after marker with
  | Some (S i) => strip (take_str (S i) after)
  | _ => after
  end.

(** The text [parse_ask_answer] works on: the string itself, the text
    items of a list joined by newlines, [None] for anything else. *)
Definition result_text (result : ResultContent) : option string :=
  match result with
  | RStr s => Some s
  | RList items =>
      Some (join nl (omap (λ p, match p with
                                | RText t => Some t
                                | ROtherItem => None
                                end) items))
  | ROther => None
  end.

(** [None] is the Python [None]. *)
Definition parse_ask_answer (result : ResultContent) : option string :=
  match result_text result with
  | None => None
  | Some content =>
      let pairs :=
        if contains content "User has answered your questions:"
        then findall_pairs content else [] in
      match pairs with
      | _ :: _ => Some (join "; " (map (λ p, strip (snd p)) pairs))
      | [] =>
          if contains content "doesn't want to proceed"
             || contains (lower content) "user wants to clarify"
          then
            let clarification := Some "[User requested clarification]" in
            match find (lower content) "the user said:" with
            | Some idx =>
                let after := strip (drop_str (idx + String.length "the user said:") content) in
                let after := trim_marker after (nl +:+ "    Questions asked:") in
                let after := trim_marker after (nl +:+ nl +:+ "    This means") in
                if decide (after = "") then clarification
                else if contains (lower after) "user wants to clarify these questions"
                     then clarification
                     else Some after
            | None => clarification
            end
          else None
      end
  end.

(** A Q&A block: [{'questions': ..., 'answer': ...}]. *)
Record QABlock := { qa_questions : list Question; answer : option string }.

Definition question_lines (q : Question) : list string :=
  ("> **Question:** " +:+ question q)
  :: map (λ opt, "> - **" +:+ label opt +:+ "** — " +:+ opt_description opt) (options q).

Definition answer_line (qa : QABlock) : string :=
  match get_truthy (answer qa) with
  | Some a => "> **Answer:** " +:+ a
  | None => "> **Answer:** [No answer recorded]"
  end.

Definition format_question_answer (qa : QABlock) : string :=
  join nl (concat (map question_lines (qa_questions qa)) ++ [">"; answer_line qa]).

(** ** Event log loader ([parse_conversation], reading loop)

    A line of the log either deserializes to a record or raises
    [JSONDecodeError] ([None]) and is skipped. *)

Record Scalars := {
  session_id : option string;
  project_path : option string;
  last_timestamp : option string
}.

(** [if k in record: v = record[k]]. *)
Definition overwrite {A} (field : option A) (old : option A) : option A :=
  match field with
  | Some v => Some v
  | None => old
  end.

Definition load_line (st : Scalars * list RawRecord) (line : option RawRecord)
    : Scalars * list RawRecord :=
  match line with
  | None => st
  | Some record =>
      ({| session_id := overwrite (sessionId record) (session_id st.1);
          project_path := overwrite (cwd record) (project_path st.1);
          last_timestamp := overwrite (timestamp record) (last_timestamp st.1) |},
       st.2 ++ [record])
  end.

Definition load (lines : list (option RawRecord)) : Scalars * list RawRecord :=
  foldl load_line
    ({| session_id := None; project_path := None; last_timestamp := None |}, [])
    lines.

(** ** Phase 1: interactive questions and their answers *)

(** [ask_questions] and [ask_answers]; a stored answer may be the Python
    [None]. *)
Record AskState := {
  ask_questions : gmap string ToolInput;
  ask_answers : gmap string (option string)
}.

Definition ask_part (st : AskState) (part : Part) : AskState :=
  match part with
  | PToolUse id name input =>
      if decide (name = "AskUserQuestion")
      then {| ask_questions := <[id := input]> (ask_questions st);
              ask_answers := ask_answers st |}
      else st
  | PToolResult tool_use_id result =>
      if decide (is_Some (ask_questions st !! tool_use_id))
      then {| ask_questions := ask_questions st;
              ask_answers := <[tool_use_id := parse_ask_answer result]> (ask_answers st) |}
      else st
  | _ => st
  end.

(** [msg.get('content', [])] when it is a list, no part otherwise. *)
Definition record_parts (record : RawRecord) : list Part :=
  match message record with
  | Some {| msg_content := CList parts |} => parts
  | _ => []
  end.

Definition ask_record (st : AskState) (record : RawRecord) : AskState :=
  foldl ask_part st (record_parts record).

Definition collect_asks (raw_records : list RawRecord) : AskState :=
  foldl ask_record {| ask_questions := ∅; ask_answers := ∅ |} raw_records.

(** [ask_answers.get(tool_id)]. *)
Definition get_answer (st : AskState) (tool_id : string) : option string :=
  default None (ask_answers st !! tool_id).

(** ** Phase 2: grouping records into turns *)

(** [not content] is false. *)
Definition content_truthy (c : Content) : bool :=
  match c with
  | CStr s => bool_decide (s ≠ "")
  | CList parts => bool_decide (parts ≠ [])
  | CNone => false
  end.

Record AggState := {
  turns : list (Role * list RawRecord);
  current_req_id : option string;
  current_assistant_records : list RawRecord
}.

Definition flush_assistant (st : AggState) : AggState :=
  {| turns := match current_assistant_records st with
              | [] => turns st
              | _ :: _ => turns st ++ [(RoleAssistant, current_assistant_records st)]
              end;
     current_req_id := None;
     current_assistant_records := [] |}.

Definition group_record (st : AggState) (record : RawRecord) : AggState :=
  match message record with
  | None => st
  | Some msg =>
      if content_truthy (msg_content msg) then
        let req_id := default "" (requestId record) in
        match role msg with
        | RoleAssistant =>
            if bool_decide (req_id ≠ "" ∧ Some req_id = current_req_id st)
            then {| turns := turns st;
                    current_req_id := current_req_id st;
                    current_assistant_records := current_assistant_records st ++ [record] |}
            else
              let st := flush_assistant st in
              {| turns := turns st;
                 current_req_id := Some req_id;
                 current_assistant_records := [record] |}
        | RoleUser =>
            let st := flush_assistant st in
            {| turns := turns st ++ [(RoleUser, [record])];
               current_req_id := current_req_id st;
               current_assistant_records := current_assistant_records st |}
        | RoleOther => st
        end
      else st
  end.

Definition group_turns (raw_records : list RawRecord) : list (Role * list RawRecord) :=
  turns (flush_assistant
           (foldl group_record
              {| turns := []; current_req_id := None; current_assistant_records := [] |}
              raw_records)).

(** ** Phase 3: enriched turns *)

(** A captured file-write: [{'file_path':, 'content':, 'line_count':}]. *)
Record WriteContent := {
  wc_file_path : string;
  wc_content : string;
  wc_line_count : nat
}.

(** An element of [messages].  A user turn has no enrichment keys; the
    renderer reads them with the default [[]]. *)
Record Turn := {
  turn_role : Role;
  text : string;
  turn_timestamp : option string;
  tool_annotations : list string;
  question_answers : list QABlock;
  write_contents : list WriteContent
}.

(** [file_content.count('\n') + 1 if file_content else 0]. *)
Definition line_count (file_content : string) : nat :=
  if decide (file_content = "") then 0 else count_char newline file_content + 1.

(** The snapshot appended to [write_contents], if any. *)
Definition capture_write (inp : ToolInput) : option WriteContent :=
  let file_content := content inp in
  if bool_decide (file_content ≠ "" ∧ line_count file_content ≤ 200)
  then Some {| wc_file_path := file_path inp;
               wc_content := file_content;
               wc_line_count := line_count file_content |}
  else None.

(** The four accumulators of an assistant turn. *)
Record Enrich := {
  e_text_parts : list string;
  e_tool_annotations : list string;
  e_question_answers : list QABlock;
  e_write_contents : list WriteContent
}.

Section enrichment.
Context (home : string) (netloc_path : string → string).
Context (asks : AskState).

(** The block appended to [question_answers] for an interactive question. *)
Definition qa_block (tool_id : string) (q_input : ToolInput) : QABlock :=
  {| qa_questions := questions q_input; answer := get_answer asks tool_id |}.

Definition enrich_part (st : Enrich) (part : Part) : Enrich :=
  match part with
  | PText t =>
      {| e_text_parts := e_text_parts st ++ [t];
         e_tool_annotations := e_tool_annotations st;
         e_question_answers := e_question_answers st;
         e_write_contents := e_write_contents st |}
  | PToolUse tool_id name inp =>
      {| e_text_parts := e_text_parts st;
         e_tool_annotations :=
           e_tool_annotations st
           ++ option_list (get_truthy (generate_tool_annotation home netloc_path name inp));
         e_question_answers :=
           e_question_answers st
           ++ (if decide (name = "AskUserQuestion") then [qa_block tool_id inp] else []);
         e_write_contents :=
           e_write_contents st
           ++ (if decide (name = "Write") then option_list (capture_write inp) else []) |}
  | _ => st
  end.

Definition enrich_record (st : Enrich) (rec : RawRecord) : Enrich :=
  match message rec with
  | Some {| msg_content := CStr s |} =>
      {| e_text_parts := e_text_parts st ++ [s];
         e_tool_annotations := e_tool_annotations st;
         e_question_answers := e_question_answers st;
         e_write_contents := e_write_contents st |}
  | Some {| msg_content := CList parts |} => foldl enrich_part st parts
  | _ => st
  end.

(** The assistant branch of the loop: the message appended, if any. *)
Definition assistant_turn (records : list RawRecord) : option Turn :=
  let st := foldl enrich_record
              {| e_text_parts := []; e_tool_annotations := [];
                 e_question_answers := []; e_write_contents := [] |} records in
  let text := join (nl +:+ nl) (filter (λ t, strip t ≠ "") (e_text_parts st)) in
  if is_meaningful text
     || bool_decide (e_tool_annotations st ≠ [])
     || bool_decide (e_question_answers st ≠ [])
  then Some {| turn_role := RoleAssistant;
               text := text;
               turn_timestamp := head records ≫= timestamp;
               tool_annotations := e_tool_annotations st;
               question_answers := e_question_answers st;
               write_contents := e_write_contents st |}
  else None.

(** One part of a user record: its text, and whether it leaves
    [is_only_ask_results] true. *)
Definition user_part_text (part : Part) : option string :=
  match part with
  | PText t => Some t
  | _ => None
  end.

Definition user_part_only_ask (part : Part) : bool :=
  match part with
  | PText _ => true
  | PToolResult tool_use_id _ => bool_decide (tool_use_id ∈ dom (ask_questions asks))
  | _ => false
  end.

(** The user branch of the loop: the message appended, if any. *)
Definition user_turn (record : RawRecord) : option Turn :=
  let text :=
    match message record with
    | Some {| msg_content := CList parts |} =>
        let text := join (nl +:+ nl) (omap user_part_text parts) in
        if forallb user_part_only_ask parts && negb (is_meaningful text)
        then None else Some text
    | Some {| msg_content := CStr s |} => Some s
    | _ => None
    end in
  match text with
  | Some text =>
      if is_meaningful text
      then Some {| turn_role := RoleUser;
                   text := text;
                   turn_timestamp := timestamp record;
                   tool_annotations := [];
                   question_answers := [];
                   write_contents := [] |}
      else None
  | None => None
  end.

(** [messages] and [first_user_msg] after one more turn. *)
Definition build_turn (st : list Turn * option string)
    (turn : Role * list RawRecord) : list Turn * option string :=
  match turn with
  | (RoleAssistant, records) => (st.1 ++ option_list (assistant_turn records), st.2)
  | (_, records) =>
      match head records ≫= user_turn with
      | Some m =>
          (st.1 ++ [m],
           match get_truthy st.2 with
           | Some _ => st.2
           | None => Some (take_str 100 (default "" (head (split_char newline (text m)))))
           end)
      | None => st
      end
  end.

Definition build_messages (turns : list (Role * list RawRecord))
    : list Turn * option string :=
  foldl build_turn ([], None) turns.
End enrichment.

(** ** [parse_conversation] *)

Record Conversation := {
  conv_path : string;
  conv_session_id : string;
  project : option string;
  first_message : string;
  message_count : nat;
  user_messages : nat;
  conv_last_timestamp : option string;
  messages : list Turn
}.

Section parse.
Context (home : string) (netloc_path : string → string).

(** The turn sequence built from the records that passed the filter. *)
Definition messages_of (raw_records : list RawRecord) : list Turn * option string :=
  build_messages home netloc_path (collect_asks raw_records) (group_turns raw_records).

(** The part of [parse_conversation] after the filter: [None] is the
    Python [None].  [jsonl_path] is given by its string and its stem. *)
Definition assemble (path stem : string) (scalars : Scalars)
    (raw_records : list RawRecord) : option Conversation :=
  match raw_records with
  | [] => None
  | _ :: _ =>
      let '(messages, first_user_msg) := messages_of raw_records in
      match messages with
      | [] => None
      | _ :: _ =>
          Some {| conv_path := path;
                  conv_session_id := default stem (get_truthy (session_id scalars));
                  project := project_path scalars;
                  first_message := default "Unknown" (get_truthy first_user_msg);
                  message_count := length messages;
                  user_messages :=
                    length (filter (λ m, turn_role m = RoleUser) messages);
                  conv_last_timestamp := last_timestamp scalars;
                  messages := messages |}
      end
  end.

Definition parse_conversation (fuel : nat) (path stem : string)
    (lines : list (option RawRecord)) : run (option Conversation) :=
  let '(scalars, all_records) := load lines in
  match all_records with
  | [] => Done None
  | _ :: _ =>
      match find_winning_path fuel all_records with
      | OutOfFuel => OutOfFuel
      | Done winning_uuids =>
          Done (assemble path stem scalars (raw_records_of winning_uuids all_records))
      end
  end.
End parse.

(** ** Document renderer and export *)

(** Line boundaries of [str.splitlines()] below 256: the ASCII ones and
    the next-line character U+0085. *)
Definition is_linebreak (c : ascii) : bool :=
  match c with
  | "010" | "011" | "012" | "013" | "028" | "029" | "030" | "133" => true
  | _ => false
  end%char.

(** [s.splitlines()]: a carriage return followed by a line feed is one
    boundary, and a final boundary opens no empty line. *)
Fixpoint splitlines (s : string) : list string :=
  match s with
  | EmptyString => []
  | String c s' =>
      if is_linebreak c then
        match c, s' with
        | "013"%char, String "010"%char s'' => "" :: splitlines s''
        | _, _ => "" :: splitlines s'
        end
      else match splitlines s' with
           | x :: l => String c x :: l
           | [] => [String c ""]
           end
  end.

(** [s.lstrip('.')]. *)
Fixpoint lstrip_dots (s : string) : string :=
  match s with
  | String "."%char s' => lstrip_dots s'
  | _ => s
  end.

(** The world an export acts on: what was printed, and the files. *)
Record World := {
  stdout : list string;
  files : gmap string string
}.

Definition print (line : string) (w : World) : World :=
  {| stdout := stdout w ++ [line]; files := files w |}.

(** [with open(path, 'w') as f:] followed by the given [f.write] calls.
    [writable path] tells whether the file system lets [open] succeed: it
    raises [OSError] otherwise (the path is a directory, its parent is
    missing, it may not be written), which is [None].  On success the file
    is truncated, then holds what was written, in order. *)
Definition write_file (writable : string → bool) (path : string)
    (writes : list string) (w : World) : option World :=
  if writable path
  then Some {| stdout := stdout w;
               files := <[path := foldl String.app "" writes]> (files w) |}
  else None.

(** A log of the store: [jsonl_file.stem], [str(jsonl_file)] and its lines. *)
Record LogFile := {
  lf_stem : string;
  lf_path : string;
  lf_lines : list (option RawRecord)
}.

(** An export returns, or an exception escapes it. *)
Inductive ExportResult :=
  | Raised
  | Returned (w : World).

Section render.
(** [str(Path.home())]; [urlparse(u).netloc + urlparse(u).path];
    [Path(p).suffix];
    [datetime.fromisoformat(t.replace('Z', '+00:00')).strftime('%Y%m%d')],
    [None] when it raises; and whether the file system lets a path be
    opened for writing. *)
Context (home : string) (netloc_path : string → string).
Context (path_suffix : string → string) (iso_yyyymmdd : string → option string).
Context (writable : string → bool).

Definition header_writes (conv : Conversation) : list string :=
  [ "# Conversation: " +:+ first_message conv +:+ nl +:+ nl;
    "**Date:** " +:+ default "None" (conv_last_timestamp conv) +:+ nl;
    "**Project:** " +:+ default "None" (project conv) +:+ nl;
    "**Messages:** " +:+ pretty (message_count conv) +:+ nl +:+ nl;
    "## Table of Contents" +:+ nl +:+ nl ].

(** The first loop over [conv['messages']]: [user_count] and the writes. *)
Definition toc_message (st : nat * list string) (msg : Turn) : nat * list string :=
  match turn_role msg with
  | RoleUser =>
      let user_count := st.1 + 1 in
      let first_line := default "" (head (split_char newline (strip (text msg)))) in
      let preview :=
        take_str 100 first_line
        +:+ (if decide (100 < String.length first_line) then "..." else "") in
      (user_count,
       st.2 ++ [ pretty user_count +:+ ". [" +:+ preview +:+ "](#user-"
                 +:+ pretty user_count +:+ ")" +:+ nl ])
  | _ => st
  end.

(** [write_map], keyed by the shortened path; a later snapshot of the
    same path replaces the earlier one. *)
Definition write_map_of (wcs : list WriteContent) : gmap string WriteContent :=
  foldl (λ m wc, <[shorten_path home (wc_file_path wc) := wc]> m) ∅ wcs.

Definition file_block_writes (wc : WriteContent) : list string :=
  let lang := lstrip_dots (path_suffix (wc_file_path wc)) in
  [ "> <details><summary>File content (" +:+ pretty (wc_line_count wc)
    +:+ " lines)</summary>" +:+ nl +:+ ">" +:+ nl;
    "> ```" +:+ lang +:+ nl ]
  ++ map (λ file_line, "> " +:+ file_line +:+ nl) (splitlines (wc_content wc))
  ++ [ "> ```" +:+ nl +:+ "> </details>" +:+ nl ].

Definition annotation_writes (write_map : gmap string WriteContent)
    (ann : string) : list string :=
  ("> _" +:+ ann +:+ "_" +:+ nl)
  :: (if startswith ann "Wrote: " then
        match write_map !! drop_str (String.length "Wrote: ") ann with
        | Some wc => file_block_writes wc
        | None => []
        end
      else []).

Definition assistant_writes (msg : Turn) : list string :=
  (if decide (strip (text msg) = "") then []
   else [ "**Assistant:**" +:+ nl +:+ nl; text msg +:+ nl +:+ nl ])
  ++ concat (map (λ qa, [format_question_answer qa; nl +:+ nl]) (question_answers msg))
  ++ match tool_annotations msg with
     | [] => []
     | annotations =>
         concat (map (annotation_writes (write_map_of (write_contents msg))) annotations)
         ++ [nl]
     end.

(** The second loop over [conv['messages']]. *)
Definition body_message (st : nat * list string) (msg : Turn) : nat * list string :=
  let '(user_count, out) :=
    match turn_role msg with
    | RoleUser =>
        let user_count := st.1 + 1 in
        (user_count,
         st.2 ++ [ "## <a id=" +:+ String quote ("user-" +:+ pretty user_count)
                   +:+ String quote ("></a>User #" +:+ pretty user_count +:+ nl +:+ nl);
                   text msg +:+ nl +:+ nl ])
    | RoleAssistant => (st.1, st.2 ++ assistant_writes msg)
    | RoleOther => st
    end in
  (user_count, out ++ ["---" +:+ nl +:+ nl]).

(** Every [f.write] of the export, in order, and the final [user_count]. *)
Definition render (conv : Conversation) : nat * list string :=
  let toc := foldl toc_message (0, header_writes conv) (messages conv) in
  foldl body_message (0, toc.2 ++ [nl +:+ "---" +:+ nl +:+ nl]) (messages conv).

(** The default output path; [None] when the timestamp does not parse
    (or is absent) and the exception escapes. *)
Definition default_output_path (conv : Conversation) : option string :=
  dt ← conv_last_timestamp conv ≫= iso_yyyymmdd;
  let safe_title :=
    replace_char " " "-" (replace_char "/" "-" (take_str 30 (first_message conv))) in
  Some ("conversation-" +:+ dt +:+ "-" +:+ safe_title +:+ ".md").

(** The logs the identifier selects. *)
Definition matching (session_id : string) (store : list LogFile) : list LogFile :=
  filter (λ f, startswith (lf_stem f) "agent-" = false
               ∧ (lf_stem f = session_id ∨ startswith (lf_stem f) session_id = true))
         store.

(** The export of the one log that was selected (from
    [conv = parse_conversation(conv_file)] on). *)
Definition export_selected (fuel : nat) (conv_file : LogFile)
    (session_id : string) (output_path : option string) (w : World)
    : run ExportResult :=
  match parse_conversation home netloc_path fuel
          (lf_path conv_file) (lf_stem conv_file) (lf_lines conv_file) with
  | OutOfFuel => OutOfFuel
  | Done None =>
      Done (Returned (print ("Failed to parse conversation " +:+ session_id) w))
  | Done (Some conv) =>
      let output_path :=
        match get_truthy output_path with
        | Some p => Some p
        | None => default_output_path conv
        end in
      match output_path with
      | None => Done Raised
      | Some output_path =>
          let '(user_count, writes) := render conv in
          match write_file writable output_path writes w with
          | None => Done Raised
          | Some w =>
              Done (Returned
                (print ("Table of Contents: " +:+ pretty user_count +:+ " user messages")
                   (print ("Exported to: " +:+ output_path) w)))
          end
      end
  end.

(** The lines printed for an ambiguous prefix. *)
Definition ambiguous_report (session_id : string) (matches : list LogFile)
    : list string :=
  [ "Ambiguous prefix '" +:+ session_id +:+ "', matches "
    +:+ pretty (length matches) +:+ " conversations:" ]
  ++ map (λ m, "  " +:+ lf_stem m) matches
  ++ [ nl +:+ "Use a longer prefix to narrow it down." ].

Definition export_conversation (fuel : nat) (store : list LogFile)
    (session_id : string) (output_path : option string) (w : World)
    : run ExportResult :=
  match matching session_id store with
  | [] => Done (Returned (print ("Conversation " +:+ session_id +:+ " not found") w))
  | [conv_file] => export_selected fuel conv_file session_id output_path w
  | matches => Done (Returned (foldl (λ w line, print line w) w
                                 (ambiguous_report session_id matches)))
  end.
End render.

(** ** Listing, search and copy-last *)

(** [conversations.sort(key=..., reverse=True)]: the stable sort in
    descending order, which leaves records of equal key in their order. *)
Definition sort_by_key_desc {A} (key : A → string) (l : list A) : list A :=
  reverse (sort_by_key key (reverse l)).

(** [c['last_timestamp'] or '']. *)
Definition recency_key (conv : Conversation) : string :=
  default "" (get_truthy (conv_last_timestamp conv)).

(** One match of a search: [{'msg_num':, 'role':, 'snippet':}]. *)
Record SearchMatch := {
  msg_num : nat;
  match_role : Role;
  snippet : string
}.

(** [text[start:end]] for [start <= end]. *)
Definition slice (start stop : nat) (s : string) : string :=
  take_str (stop - start) (drop_str start s).

Section search.
(** [str.lower] of the standard library.  The search looks the keyword up
    in the lowered text and cuts the snippet out of the text itself, at the
    index found in the lowered one; whether the two line up depends on
    [str.lower], which may change the length of a text that is not ASCII.
    The search is therefore stated for any such function; [lower] is the
    one of the texts modelled here. *)
Context (py_lower : string → string).

(** The body of the loop over [enumerate(conv['messages'])] in
    [search_conversations]: the match appended for message [i], if any. *)
Definition search_message (keyword : string) (i : nat) (msg : Turn)
    : option SearchMatch :=
  match find (py_lower (text msg)) (py_lower keyword) with
  | Some idx =>
      let start := idx - 50 in
      let stop := String.length (text msg) `min` (idx + String.length keyword + 50) in
      Some {| msg_num := i + 1;
              match_role := turn_role msg;
              snippet := "..." +:+ slice start stop (text msg) +:+ "..." |}
  | None => None
  end.

Definition search_matches (keyword : string) (conv : Conversation) : list SearchMatch :=
  omap id (imap (search_message keyword) (messages conv)).
End search.

(** What [copy_last_message] does with the conversations it found. *)
Inductive CopyOutcome :=
  | NoConversations
  | NoAssistantMessage
  | Copy (text : string).

(** The loop over [reversed(conv['messages'])]: the text of the last
    assistant turn. *)
Definition last_assistant_msg (messages : list Turn) : option string :=
  text <$> head (filter (λ m, turn_role m = RoleAssistant) (reverse messages)).

Definition copy_last_choice (conversations : list Conversation) : CopyOutcome :=
  match conversations with
  | [] => NoConversations
  | conv :: _ =>
      match get_truthy (last_assistant_msg (messages conv)) with
      | Some t => Copy t
      | None => NoAssistantMessage
      end
  end.

Section listing.
(** [str(Path.home())]; [urlparse(u).netloc + urlparse(u).path];
    [normalize_path]; and [str.lower]. *)
Context (home : string) (netloc_path : string → string).
Context (normalize_path : string → string).
Context (py_lower : string → string).

(** [if project_path and conv['project']: ...]: the conversation is kept. *)
Definition project_matches (project_path : option string) (conv : Conversation) : bool :=
  match get_truthy project_path, get_truthy (project conv) with
  | Some wanted, Some p => bool_decide (normalize_path p = wanted)
  | _, _ => true
  end.

(** The scan of the store shared by [get_all_conversations] and
    [search_conversations]: the conversations appended, in store order. *)
Fixpoint scan (fuel : nat) (store : list LogFile) (project_path : option string)
    : run (list Conversation) :=
  match store with
  | [] => Done []
  | jsonl_file :: store' =>
      if startswith (lf_stem jsonl_file) "agent-" then scan fuel store' project_path
      else
        match parse_conversation home netloc_path fuel
                (lf_path jsonl_file) (lf_stem jsonl_file) (lf_lines jsonl_file) with
        | OutOfFuel => OutOfFuel
        | Done None => scan fuel store' project_path
        | Done (Some conv) =>
            if project_matches project_path conv then
              match scan fuel store' project_path with
              | OutOfFuel => OutOfFuel
              | Done conversations => Done (conv :: conversations)
              end
            else scan fuel store' project_path
        end
  end.

Definition get_all_conversations (fuel : nat) (store : list LogFile)
    (project_path : option string) : run (list Conversation) :=
  match scan fuel store project_path with
  | OutOfFuel => OutOfFuel
  | Done conversations => Done (sort_by_key_desc recency_key conversations)
  end.

(** [get_all_conversations(project_path)[:limit]] of [recent_conversations]. *)
Definition recent (fuel : nat) (limit : nat) (store : list LogFile)
    (project_path : option string) : run (list Conversation) :=
  match get_all_conversations fuel store project_path with
  | OutOfFuel => OutOfFuel
  | Done conversations => Done (take limit conversations)
  end.

(** [results] of [search_conversations]: the conversations with a match,
    each with its matches. *)
Definition search_results (fuel : nat) (store : list LogFile) (keyword : string)
    (project_path : option string) : run (list (Conversation * list SearchMatch)) :=
  match scan fuel store project_path with
  | OutOfFuel => OutOfFuel
  | Done conversations =>
      Done (omap (λ conv, match search_matches py_lower keyword conv with
                          | [] => None
                          | matches => Some (conv, matches)
                          end) conversations)
  end.

(** What [copy_last_message] hands to the clipboard. *)
Definition copy_last_message (fuel : nat) (store : list LogFile)
    (project_path : option string) : run CopyOutcome :=
  match get_all_conversations fuel store project_path with
  | OutOfFuel => OutOfFuel
  | Done conversations => Done (copy_last_choice conversations)
  end.

(** The [--project] flag of [main]: the project path and the remaining
    arguments, or [None] when the flag has no value and [main] exits. *)
Definition parse_project_flag (args : list string)
    : option (option string * list string) :=
  match list_find (λ a, a = "--project") args with
  | Some (idx, _) =>
      match args !! (idx + 1) with
      | Some value => Some (Some (normalize_path value), take idx args ++ drop (idx + 2) args)
      | None => None
      end
  | None => Some (None, args)
  end.
End listing.

(** ** Notions used to state the properties *)

(** [p] is the parent id that the record indexed under [u] declares. *)
Definition parent_link (by_uuid : gmap string RawRecord) (u p : string) : Prop :=
  ∃ rec, by_uuid !! u = Some rec ∧ get_truthy (parentUuid rec) = Some p.



(** The ids of the records, the falsy ones left out. *)
Definition ids_of (all_records : list RawRecord) : list string :=
  omap (λ r, get_truthy (uuid r)) all_records.

(** [rank] decreases from the id [u] to the parent its record declares. *)
Definition ranked (rank : string → nat) (u : string) (rec : RawRecord) : Prop :=
  match get_truthy (parentUuid rec) with
  | Some p => rank p < rank u
  | None => True
  end.

#[global] Instance ranked_dec rank u rec : Decision (ranked rank u rec).
Proof. unfold ranked. destruct (get_truthy (parentUuid rec)); apply _. Defined.

(** An assistant record of request [q] whose content is not empty. *)
Definition assistant_of (q : string) (r : RawRecord) : Prop :=
  ∃ m, message r = Some m ∧ role m = RoleAssistant
       ∧ content_truthy (msg_content m) = true ∧ requestId r = Some q.

(** A user record whose content is not empty. *)
Definition user_with_content (r : RawRecord) : Prop :=
  ∃ m, message r = Some m ∧ role m = RoleUser
       ∧ content_truthy (msg_content m) = true.

(** An assistant record of request [q], whatever its content. *)
Definition assistant_record (q : string) (r : RawRecord) : Prop :=
  ∃ m, message r = Some m ∧ role m = RoleAssistant ∧ requestId r = Some q.

(** A user record, whatever its content. *)
Definition user_record (r : RawRecord) : Prop :=
  ∃ m, message r = Some m ∧ role m = RoleUser.

(** The result text has one of the two forms [parse_ask_answer] knows. *)
Definition recognised (c : string) : Prop :=
  (contains c "User has answered your questions:" = true ∧ findall_pairs c ≠ [])
  ∨ contains c "doesn't want to proceed" = true
  ∨ contains (lower c) "user wants to clarify" = true.

(** The session identifier as "the last value that is not empty". *)
Definition last_nonempty_session_id (lines : list (option RawRecord)) : option string :=
  last (omap (λ r, get_truthy (sessionId r)) (omap id lines)).



(** The record takes part in a turn: it has a message of non-empty
    content whose role is user or assistant. *)
Definition grouped (r : RawRecord) : bool :=
  match message r with
  | Some m => content_truthy (msg_content m) && bool_decide (role m ≠ RoleOther)
  | None => false
  end.

(** An assistant record of non-empty content whose request id reads [q]
    (the empty string when it has none). *)
Definition assistant_req (q : string) (r : RawRecord) : Prop :=
  ∃ m, message r = Some m ∧ role m = RoleAssistant
       ∧ content_truthy (msg_content m) = true ∧ default "" (requestId r) = q.

(** The record closes a pending assistant turn of request [q]: it is a
    user record, or an assistant record whose request id is another one
    (or that has none), its content not being empty in either case. *)
Definition closes_turn (q : string) (r : RawRecord) : Prop :=
  user_with_content r ∨ ∃ q', q' ≠ q ∧ assistant_req q' r.

(** The message a turn gives, if any. *)
Definition turn_message (home : string) (netloc_path : string → string)
    (asks : AskState) (turn : Role * list RawRecord) : option Turn :=
  match turn with
  | (RoleAssistant, records) => assistant_turn home netloc_path asks records
  | (_, records) => head records ≫= user_turn asks
  end.

(** The state of the grouping loop before the first record. *)
Definition no_turn : AggState :=
  {| turns := []; current_req_id := None; current_assistant_records := [] |}.

(** Two turns the renderer cannot tell apart: they agree on all but the
    timestamp. *)
Definition same_rendered_fields (m m' : Turn) : Prop :=
  turn_role m = turn_role m' ∧ text m = text m'
  ∧ tool_annotations m = tool_annotations m'
  ∧ question_answers m = question_answers m'
  ∧ write_contents m = write_contents m'.

(** Two conversations with the same header metadata and the same turn
    sequence, the timestamps of the turns apart. *)
Definition same_document_input (conv conv' : Conversation) : Prop :=
  first_message conv = first_message conv'
  ∧ conv_last_timestamp conv = conv_last_timestamp conv'
  ∧ project conv = project conv'
  ∧ message_count conv = message_count conv'
  ∧ Forall2 same_rendered_fields (messages conv) (messages conv').

(** The conversation with another header timestamp. *)
Definition set_last_timestamp (ts : option string) (conv : Conversation) : Conversation :=
  {| conv_path := conv_path conv; conv_session_id := conv_session_id conv;
     project := project conv; first_message := first_message conv;
     message_count := message_count conv; user_messages := user_messages conv;
     conv_last_timestamp := ts; messages := messages conv |}.

(** ** Sample logs *)

(** A record of the tree: id, parent id and timestamp only. *)
Definition node (u p t : option string) : RawRecord :=
  {| uuid := u; parentUuid := p; timestamp := t; sessionId := None; cwd := None;
     requestId := None; isMeta := false; message := None |}.

(** A record with a message: id, parent id, request id, role and content. *)
Definition entry (u p q : option string) (r : Role) (c : Content) : RawRecord :=
  {| uuid := u; parentUuid := p; timestamp := None; sessionId := None; cwd := None;
     requestId := q; isMeta := false;
     message := Some {| role := r; msg_content := c |} |}.

(** A root with two children: a retry of the same message. *)
Definition branching_log : list RawRecord :=
  [ node (Some "r") None (Some "2024-01-01T10:00:00Z");
    node (Some "aa") (Some "r") (Some "2024-01-01T10:05:00Z");
    node (Some "bb") (Some "r") (Some "2024-01-01T10:02:00Z") ].

(** A log with no id at all. *)
Definition flat_log : list RawRecord :=
  [ entry None None None RoleUser (CStr "hello");
    entry None None (Some "q1") RoleAssistant (CStr "hi") ].

(** A log whose first record names a parent that is not in the log. *)
Definition dangling_log : list RawRecord :=
  [ node (Some "c1") (Some "gone") (Some "2024-01-01T10:00:00Z");
    node (Some "c2") (Some "c1") (Some "2024-01-01T10:01:00Z") ].

(** A record with a message and no id. *)
Definition detached : RawRecord := entry None None None RoleUser (CStr "note").

(** Two assistant records of one request, one of another, a user record. *)
Definition first_chunk : RawRecord :=
  entry (Some "a1") None (Some "req_1") RoleAssistant (CStr "let me look").
Definition second_chunk : RawRecord :=
  entry (Some "a2") (Some "a1") (Some "req_1") RoleAssistant (CStr "found it").
Definition other_request : RawRecord :=
  entry (Some "a3") (Some "a2") (Some "req_2") RoleAssistant (CStr "done").
Definition user_reply : RawRecord :=
  entry (Some "u1") (Some "a2") None RoleUser (CStr "thanks").

(** An assistant record and a user record with empty content. *)
Definition empty_chunk : RawRecord :=
  entry (Some "a0") None (Some "req_1") RoleAssistant (CList []).
Definition empty_user : RawRecord :=
  entry (Some "u0") (Some "a1") None RoleUser (CStr "").

Definition colour_question : ToolInput :=
  {| file_path := ""; content := ""; query := ""; url := ""; description := "";
     command := ""; pattern := "";
     questions := [ {| question := "Which colour?";
                       options := [ {| label := "Red"; opt_description := "warm" |};
                                    {| label := "Blue"; opt_description := "cold" |} ] |} ] |}.

(** A question whose result text has neither known form. *)
Definition unparsed_log : list RawRecord :=
  [ entry (Some "u1") None (Some "req_1") RoleAssistant
      (CList [PToolUse "toolu_1" "AskUserQuestion" colour_question]);
    entry (Some "u2") (Some "u1") None RoleUser
      (CList [PToolResult "toolu_1" (RStr "ok")]) ].

(** A question the user declined. *)
Definition declined_log : list RawRecord :=
  [ entry (Some "u1") None (Some "req_1") RoleAssistant
      (CList [PToolUse "toolu_1" "AskUserQuestion" colour_question]);
    entry (Some "u2") (Some "u1") None RoleUser
      (CList [PToolResult "toolu_1"
                (RStr "The user doesn't want to proceed with this tool use.")]) ].

(** A file-write of [n] lines, [n] at least one. *)
Definition write_of_lines (n : nat) : ToolInput :=
  {| file_path := "/home/u/notes.txt"; content := join nl (replicate n "x");
     query := ""; url := ""; description := ""; command := ""; pattern := "";
     questions := [] |}.

(** Two lines of a log: a session identifier, then an empty one, with
    timestamps out of order. *)
Definition session_lines : list (option RawRecord) :=
  [ Some {| uuid := Some "u1"; parentUuid := None; timestamp := Some "2024-03-02T09:00:00Z";
            sessionId := Some "abc"; cwd := Some "/work/one"; requestId := None;
            isMeta := false;
            message := Some {| role := RoleUser; msg_content := CStr "fix bug" |} |};
    None;
    Some {| uuid := Some "u2"; parentUuid := Some "u1";
            timestamp := Some "2024-03-01T09:00:00Z";
            sessionId := Some ""; cwd := Some "/work/two"; requestId := Some "req_1";
            isMeta := false;
            message := Some {| role := RoleAssistant; msg_content := CStr "will check" |} |} ].

(** A store of three logs, two of them sharing a prefix. *)
Definition sample_store : list LogFile :=
  [ {| lf_stem := "abc-1"; lf_path := "/p/abc-1.jsonl"; lf_lines := session_lines |};
    {| lf_stem := "abc-2"; lf_path := "/p/abc-2.jsonl"; lf_lines := [] |};
    {| lf_stem := "agent-abc"; lf_path := "/p/agent-abc.jsonl"; lf_lines := [] |} ].

Definition empty_world : World := {| stdout := []; files := ∅ |}.

(** A conversation with no turn. *)
Definition no_conversation : Conversation :=
  {| conv_path := ""; conv_session_id := ""; project := None; first_message := "";
     message_count := 0; user_messages := 0; conv_last_timestamp := None;
     messages := [] |}.

(** A conversation of two turns, and the same one read from another log
    at another time. *)
Definition greeting : Conversation :=
  {| conv_path := "/p/abc-1.jsonl"; conv_session_id := "abc-1";
     project := Some "/work/one"; first_message := "hello";
     message_count := 2; user_messages := 1;
     conv_last_timestamp := Some "2024-03-01T09:00:00Z";
     messages :=
       [ {| turn_role := RoleUser; text := "hello";
            turn_timestamp := Some "2024-03-01T08:59:00Z";
            tool_annotations := []; question_answers := []; write_contents := [] |};
         {| turn_role := RoleAssistant; text := "hi";
            turn_timestamp := Some "2024-03-01T09:00:00Z";
            tool_annotations := ["Read: ~/notes.txt"]; question_answers := [];
            write_contents := [] |} ] |}.

Definition greeting_copy : Conversation :=
  {| conv_path := "/q/copy.jsonl"; conv_session_id := "copy";
     project := Some "/work/one"; first_message := "hello";
     message_count := 2; user_messages := 7;
     conv_last_timestamp := Some "2024-03-01T09:00:00Z";
     messages :=
       [ {| turn_role := RoleUser; text := "hello";
            turn_timestamp := None;
            tool_annotations := []; question_answers := []; write_contents := [] |};
         {| turn_role := RoleAssistant; text := "hi";
            turn_timestamp := Some "2031-01-01T00:00:00Z";
            tool_annotations := ["Read: ~/notes.txt"]; question_answers := [];
            write_contents := [] |} ] |}.

(** ** Notions used to state the further properties *)

(** The walk from [u] reaches an id that is its own ancestor. *)
Definition leads_into_cycle (by_uuid : gmap string RawRecord) (u : string) : Prop :=
  ∃ d, rtc (parent_link by_uuid) u d ∧ tc (parent_link by_uuid) d d.

(** A user turn is one user record; an assistant turn is a non-empty run
    of assistant records of one request id, which is not empty when the
    run has several records. *)
Definition well_formed_turn (t : Role * list RawRecord) : Prop :=
  match t.1 with
  | RoleUser => ∃ r, t.2 = [r] ∧ user_with_content r
  | RoleAssistant =>
      t.2 ≠ [] ∧ ∃ q, Forall (assistant_req q) t.2 ∧ (1 < length t.2 → q ≠ "")
  | RoleOther => False
  end.

(** The invariant of the grouping loop after the records [done]. *)
Definition group_inv (st : AggState) (done : list RawRecord) : Prop :=
  concat (map snd (turns st)) ++ current_assistant_records st
  = filter (λ r, grouped r = true) done
  ∧ Forall well_formed_turn (turns st)
  ∧ (current_assistant_records st = []
     ∨ ∃ q, current_req_id st = Some q
            ∧ Forall (assistant_req q) (current_assistant_records st)
            ∧ (1 < length (current_assistant_records st) → q ≠ "")).

(** A turn worth showing: a user turn of meaningful text and no
    enrichment, or an assistant turn with meaningful text, an annotation
    or a Q&A block. *)
Definition significant (m : Turn) : Prop :=
  match turn_role m with
  | RoleUser =>
      is_meaningful (text m) = true
      ∧ tool_annotations m = [] ∧ question_answers m = [] ∧ write_contents m = []
  | RoleAssistant =>
      is_meaningful (text m) = true ∨ tool_annotations m ≠ [] ∨ question_answers m ≠ []
  | RoleOther => False
  end.

(** The title a user turn offers: the first line of its text, cut at 100
    characters, when that is not empty. *)
Definition title_of (m : Turn) : option string :=
  match turn_role m with
  | RoleUser => get_truthy (Some (take_str 100 (default "" (head (split_char newline (text m))))))
  | _ => None
  end.

(** The user turns, in order. *)
Definition user_turns (messages : list Turn) : list Turn :=
  filter (λ m, turn_role m = RoleUser) messages.

(** The line of the table of contents for the user turn numbered [k]. *)
Definition toc_entry (k : nat) (msg : Turn) : string :=
  let first_line := default "" (head (split_char newline (strip (text msg)))) in
  let preview :=
    take_str 100 first_line
    +:+ (if decide (100 < String.length first_line) then "..." else "") in
  pretty k +:+ ". [" +:+ preview +:+ "](#user-" +:+ pretty k +:+ ")" +:+ nl.

(** The heading of the user turn numbered [k], with its anchor. *)
Definition user_heading (k : nat) : string :=
  "## <a id=" +:+ String quote ("user-" +:+ pretty k)
  +:+ String quote ("></a>User #" +:+ pretty k +:+ nl +:+ nl).

(** The text has no double quote. *)
Definition no_quote (s : string) : Prop := count_char quote s = 0.

(** One answered pair as the question tool writes it: the question and
    the answer, each between double quotes, joined by an equals sign. *)
Definition answered_pair (p : string * string) : string :=
  String quote (p.1 +:+ String quote (String "="%char (String quote (p.2 +:+ String quote "")))).

(** The result text of an answered question. *)
Definition answered_text (pairs : list (string * string)) (ending : string) : string :=
  "User has answered your questions: " +:+ join ", " (map answered_pair pairs) +:+ ending.

(** The texts a record brings to an assistant turn. *)
Definition record_texts (rec : RawRecord) : list string :=
  match message rec with
  | Some {| msg_content := CStr s |} => [s]
  | Some {| msg_content := CList parts |} =>
      omap (λ p, match p with PText t => Some t | _ => None end) parts
  | _ => []
  end.

Section contributions.
Context (home : string) (netloc_path : string → string) (asks : AskState).

(** The annotation, the Q&A block and the snapshot a part brings. *)
Definition part_annotation (p : Part) : option string :=
  match p with
  | PToolUse _ name inp => generate_tool_annotation home netloc_path name inp
  | _ => None
  end.

Definition part_question (p : Part) : option QABlock :=
  match p with
  | PToolUse tool_id name inp =>
      if decide (name = "AskUserQuestion") then Some (qa_block asks tool_id inp) else None
  | _ => None
  end.

Definition part_write (p : Part) : option WriteContent :=
  match p with
  | PToolUse _ name inp => if decide (name = "Write") then capture_write inp else None
  | _ => None
  end.
End contributions.

(** The lines of a Q&A block. *)
Definition block_lines (qa : QABlock) : list string :=
  concat (map question_lines (qa_questions qa)) ++ [">"; answer_line qa].

(** The records of a log: those of its lines that deserialize. *)
Definition records_of (f : LogFile) : list RawRecord := omap id (lf_lines f).


(** Lowering leaves the characters of [s] in place: the lower case of
    a slice of [s] is the slice of its lower case.  It holds of every
    ASCII text; it fails where [str.lower] gives two characters for one. *)
Definition lowers_in_place (py_lower : string → string) (s : string) : Prop :=
  ∀ a b, py_lower (slice a b s) = slice a b (py_lower s).

(** ** More sample data *)

(** A terminal [t] whose ancestors [a] and [b] name each other. *)
Definition cyclic_log : list RawRecord :=
  [ node (Some "a") (Some "b") (Some "2024-01-01T10:00:00Z");
    node (Some "b") (Some "a") (Some "2024-01-01T10:01:00Z");
    node (Some "t") (Some "a") (Some "2024-01-01T10:02:00Z") ].

(** An assistant record made of one tool invocation. *)
Definition tool_only_record : RawRecord :=
  entry (Some "a1") None (Some "req_1") RoleAssistant
    (CList [PToolUse "toolu_9" "Write" (write_of_lines 2)]).

(** A log whose records lead the resolver into a cycle. *)
Definition cyclic_file : LogFile :=
  {| lf_stem := "loop"; lf_path := "/p/loop.jsonl"; lf_lines := map Some cyclic_log |}.

(** A user turn with the given text. *)
Definition said (t : string) : Turn :=
  {| turn_role := RoleUser; text := t; turn_timestamp := None;
     tool_annotations := []; question_answers := []; write_contents := [] |}.

(** * Properties *)

(** ** The stable sort and its last element *)

Section sort_facts.
Context {A : Type} (key : A → string).
Local Abbreviation kle := (λ a b : A, String.le (key a) (key b)).









End sort_facts.

(** ** The id index *)

Lemma get_truthy_Some o s : get_truthy o = Some s ↔ o = Some s ∧ s ≠ "".
Proof.
  unfold get_truthy. destruct o as [s'|]; [|naive_solver].
  case_decide; naive_solver.
Qed.

Lemma by_uuid_of_snoc l r :
  by_uuid_of (l ++ [r])
  = match get_truthy (uuid r) with
    | Some u => <[u := r]> (by_uuid_of l)
    | None => by_uuid_of l
    end.
Proof. unfold by_uuid_of. by rewrite foldl_app. Qed.

Lemma by_uuid_of_lookup l u rec :
  by_uuid_of l !! u = Some rec → rec ∈ l ∧ get_truthy (uuid rec) = Some u.
Proof.
  induction l as [|r l IH] using rev_ind; [done|].
  rewrite by_uuid_of_snoc. destruct (get_truthy (uuid r)) as [v|] eqn:E.
  - destruct (decide (v = u)) as [->|Hne].
    + rewrite lookup_insert_eq. intros [= <-]. set_solver.
    + rewrite lookup_insert_ne by done. set_solver.
  - set_solver.
Qed.

Lemma by_uuid_of_is_Some l r u :
  r ∈ l → get_truthy (uuid r) = Some u → is_Some (by_uuid_of l !! u).
Proof.
  induction l as [|r' l IH] using rev_ind; [by intros ?%elem_of_nil|].
  rewrite by_uuid_of_snoc. intros [Hr| ->%list_elem_of_singleton]%elem_of_app Hu.
  - destruct (get_truthy (uuid r')) as [v|]; [|by apply IH].
    destruct (decide (v = u)) as [->|Hne].
    + rewrite lookup_insert_eq. by eexists.
    + rewrite lookup_insert_ne by done. by apply IH.
  - rewrite Hu, lookup_insert_eq. by eexists.
Qed.


Lemma by_uuid_of_empty l :
  by_uuid_of l = ∅ ↔ ids_of l = [].
Proof.
  split.
  - intros He. unfold ids_of.
    destruct (omap _ l) as [|u us] eqn:E; [done|]. exfalso.
    assert (u ∈ omap (λ r, get_truthy (uuid r)) l) as Hu by (rewrite E; set_solver).
    apply list_elem_of_omap in Hu as (r & Hr & Hu).
    destruct (by_uuid_of_is_Some l r u Hr Hu) as [x Hx].
    by rewrite He, lookup_empty in Hx.
  - intros He. apply map_empty. intros u.
    destruct (by_uuid_of l !! u) as [rec|] eqn:E; [|done].
    apply by_uuid_of_lookup in E as [Hr Hu].
    assert (u ∈ ids_of l) as Hin by (apply list_elem_of_omap; eauto).
    rewrite He in Hin. by apply elem_of_nil in Hin.
Qed.

(** ** The backward walk *)

Section walk_facts.
Context (by_uuid : gmap string RawRecord).
Local Abbreviation link := (parent_link by_uuid).

Lemma parent_link_fun u p q : link u p → link u q → p = q.
Proof. intros (r & Hr & Hp) (r' & Hr' & Hq). congruence. Qed.

Lemma rtc_link_absent c x : by_uuid !! c = None → rtc link c x ↔ x = c.
Proof.
  intros Hc. split; [|by intros ->].
  intros H. destruct H as [|? p ? (r & Hr & _)]; [done|congruence].
Qed.

Lemma rtc_link_root c rec x :
  by_uuid !! c = Some rec → get_truthy (parentUuid rec) = None →
  rtc link c x ↔ x = c.
Proof.
  intros Hc Hp. split; [|by intros ->].
  intros H. destruct H as [|? p ? (r & Hr & Hq)]; [done|congruence].
Qed.

Lemma rtc_link_step c rec p x :
  by_uuid !! c = Some rec → get_truthy (parentUuid rec) = Some p →
  rtc link c x ↔ x = c ∨ rtc link p x.
Proof.
  intros Hc Hp. split.
  - intros H. destruct H as [|? q ? Hq H]; [by left|right].
    assert (q = p) as -> by (eapply parent_link_fun; [done|by eexists]). done.
  - intros [->|H]; [done|]. eapply rtc_l; [by eexists|done].
Qed.

(** What the loop returns, whenever it returns. *)
Lemma walk_spec fuel current winning S :
  walk fuel by_uuid current winning = Done S →
  ∀ x, x ∈ S ↔ x ∈ winning ∨ ∃ c, get_truthy current = Some c ∧ rtc link c x.
Proof.
  revert current winning.
  induction fuel as [|fuel IH]; intros current winning; simpl; [done|].
  destruct (get_truthy current) as [c|] eqn:Hc.
  - destruct (by_uuid !! c) as [rec|] eqn:Hrec.
    + intros Hw x. rewrite (IH _ _ Hw x), elem_of_union, elem_of_singleton.
      destruct (get_truthy (parentUuid rec)) as [p|] eqn:Hp.
      * split.
        -- intros [[->|?]|(q & [= <-] & Hq)]; [|by left|].
           ++ right. by exists c.
           ++ right. exists c. split; [done|]. eapply rtc_link_step; eauto.
        -- intros [?|(c' & [= <-] & Hx)]; [by left; right|].
           eapply rtc_link_step in Hx as [->|Hx]; eauto.
      * split.
        -- intros [[->|?]|(q & ? & _)]; [|by left|done].
           right. by exists c.
        -- intros [?|(c' & [= <-] & Hx)]; [by left; right|].
           eapply rtc_link_root in Hx as ->; eauto.
    + intros [= <-] x. rewrite elem_of_union, elem_of_singleton. split.
      * intros [->|?]; [|by left]. right. by exists c.
      * intros [?|(c' & [= <-] & Hx)]; [by right|].
        apply rtc_link_absent in Hx as ->; auto.
  - intros [= <-] x. naive_solver.
Qed.

End walk_facts.

(** ** The winning-path resolver *)

















(** The retry scenario: the later child [aa] wins, whatever the order of
    the two children in the log, and the other child is not on the path. *)
Example find_winning_path_branching_log :
  find_winning_path 4 branching_log = Done (Some {["aa"; "r"]})
  ∧ find_winning_path 4 (reverse branching_log) = Done (Some {["aa"; "r"]}).
Proof. split; vm_compute; reflexivity. Qed.

Lemma kept_None r :
  kept None r = true ↔ is_Some (message r) ∧ isMeta r = false.
Proof.
  unfold kept. destruct (message r); simpl.
  - destruct (isMeta r); split; naive_solver.
  - split; [done|]. by intros [[? [=]] _].
Qed.

Lemma filter_nil_Forall {A} (P : A → Prop) `{!∀ x, Decision (P x)} (l : list A) :
  filter P l = [] ↔ Forall (λ x, ¬ P x) l.
Proof.
  induction l as [|x l IH]; [by rewrite filter_nil|].
  rewrite filter_cons, Forall_cons. case_decide; naive_solver.
Qed.

Lemma terminals_of_nil recs :
  terminals_of recs = [] ↔ ∀ u, u ∈ ids_of recs → u ∈ parent_uuids_of recs.
Proof.
  unfold terminals_of. rewrite filter_nil_Forall, Forall_forall. unfold ids_of.
  setoid_rewrite list_elem_of_omap. unfold is_terminal. split.
  - intros H u (r & Hr & Hu). specialize (H r Hr). rewrite Hu in H.
    by apply dec_stable.
  - intros H r Hr. destruct (get_truthy (uuid r)) as [u|] eqn:Hu; [|by intros []].
    intros Hn. apply Hn, H. eauto.
Qed.

Lemma find_winning_path_None recs fuel :
  ids_of recs = [] ∨ (∀ u, u ∈ ids_of recs → u ∈ parent_uuids_of recs) →
  find_winning_path fuel recs = Done None.
Proof.
  intros H. unfold find_winning_path. case_decide as He; [done|].
  destruct H as [H|H]; [by apply by_uuid_of_empty in H|].
  apply terminals_of_nil in H. unfold latest_terminal_of. by rewrite H.
Qed.

(** C2.  When no record has an id, or every id is named as a parent by
    some record, [find_winning_path] returns [None] (whatever the fuel),
    the filter then keeps every record that has a message and is not
    meta, in order, and [parse_conversation] assembles the conversation
    from exactly those records. *)
Theorem no_path_keeps_every_message_record recs fuel :
  ids_of recs = [] ∨ (∀ u, u ∈ ids_of recs → u ∈ parent_uuids_of recs) →
  find_winning_path fuel recs = Done None
  ∧ raw_records_of None recs
    = filter (λ r, is_Some (message r) ∧ isMeta r = false) recs
  ∧ ∀ home netloc_path path stem lines,
      (load lines).2 = recs →
      parse_conversation home netloc_path fuel path stem lines
      = Done (assemble home netloc_path path stem (load lines).1
                (filter (λ r, is_Some (message r) ∧ isMeta r = false) recs)).
Proof.
  intros H. pose proof (find_winning_path_None recs fuel H) as Hfind.
  assert (raw_records_of None recs
          = filter (λ r, is_Some (message r) ∧ isMeta r = false) recs) as Hraw.
  { unfold raw_records_of. apply list_filter_iff. intros r. apply kept_None. }
  split_and!; [done..|].
  intros home netloc_path path stem lines Hload. unfold parse_conversation.
  destruct (load lines) as [scalars all_records]. simpl in *. subst all_records.
  destruct recs as [|r recs]; [done|]. by rewrite Hfind, Hraw.
Qed.

Lemma no_path_keeps_every_message_record_witness :
  find_winning_path 0 flat_log = Done None
  ∧ raw_records_of None flat_log
    = filter (λ r, is_Some (message r) ∧ isMeta r = false) flat_log
  ∧ ∀ home netloc_path path stem lines,
      (load lines).2 = flat_log →
      parse_conversation home netloc_path 0 path stem lines
      = Done (assemble home netloc_path path stem (load lines).1
                (filter (λ r, is_Some (message r) ∧ isMeta r = false) flat_log)).
Proof.
  apply (no_path_keeps_every_message_record flat_log 0).
  left. reflexivity.
Defined.

Lemma kept_without_id winning r :
  is_Some (message r) → isMeta r = false → get_truthy (uuid r) = None →
  kept winning r = true.
Proof.
  intros [m Hm] Hmeta Hu. unfold kept. rewrite Hm, Hmeta, Hu.
  by destruct (winning_truthy winning).
Qed.

Lemma not_kept_has_id winning r :
  is_Some (message r) → isMeta r = false → kept winning r ≠ true →
  ∃ u s, get_truthy (uuid r) = Some u ∧ winning_truthy winning = Some s ∧ u ∉ s.
Proof.
  intros [m Hm] Hmeta. unfold kept. rewrite Hm, Hmeta.
  destruct (winning_truthy winning) as [s|]; [|done].
  destruct (get_truthy (uuid r)) as [u|]; [|done].
  intros Hn. exists u, s. split_and!; [done..|].
  intros Hin. by apply Hn, bool_decide_eq_true.
Qed.

(** C10.  Whatever the winning path, a record that has a message, is not
    meta and has no id passes the filter; and a record that has a message,
    is not meta and is filtered out has an id, which is not on the
    (non-empty) winning path. *)
Theorem filter_only_excludes_records_with_id winning recs r :
  r ∈ recs → is_Some (message r) → isMeta r = false →
  (get_truthy (uuid r) = None → r ∈ raw_records_of winning recs)
  ∧ (r ∉ raw_records_of winning recs →
     ∃ u s, get_truthy (uuid r) = Some u ∧ winning_truthy winning = Some s ∧ u ∉ s).
Proof.
  intros Hin Hmsg Hmeta. unfold raw_records_of. split.
  - intros Hu. apply list_elem_of_filter. split; [|done].
    by apply kept_without_id.
  - intros Hn. apply not_kept_has_id; [done..|].
    intros Hk. apply Hn, list_elem_of_filter. done.
Qed.

Lemma filter_only_excludes_records_with_id_witness :
  (get_truthy (uuid detached) = None →
   detached ∈ raw_records_of (Some {["aa"; "r"]}) (branching_log ++ [detached]))
  ∧ (detached ∉ raw_records_of (Some {["aa"; "r"]}) (branching_log ++ [detached]) →
     ∃ u s, get_truthy (uuid detached) = Some u
            ∧ winning_truthy (Some {["aa"; "r"]}) = Some s ∧ u ∉ s).
Proof.
  apply (filter_only_excludes_records_with_id
           (Some {["aa"; "r"]}) (branching_log ++ [detached]) detached).
  - apply elem_of_app. right. apply list_elem_of_here.
  - eexists. reflexivity.
  - reflexivity.
Defined.

Section chain_facts.
Context (by_uuid : gmap string RawRecord).
Local Abbreviation link := (parent_link by_uuid).

Lemma nsteps_link_fun n x y z : nsteps link n x y → nsteps link n x z → y = z.
Proof.
  intros H. revert z. induction H as [|n x x1 y Hx _ IH]; intros z Hz.
  - by inversion Hz.
  - inversion Hz as [|? ? x2 ? Hx2 Hz']; subst.
    assert (x2 = x1) as -> by (eapply parent_link_fun; done). by apply IH.
Qed.

(** The loop returns after [k + 2] iterations when [k] links lead from
    the current id to a record whose declared parent the index lacks. *)
Lemma walk_chain k fuel current u c rec p winning :
  get_truthy current = Some u →
  nsteps link k u c →
  by_uuid !! c = Some rec →
  get_truthy (parentUuid rec) = Some p →
  by_uuid !! p = None →
  k + 2 ≤ fuel →
  ∃ S, walk fuel by_uuid current winning = Done S.
Proof.
  intros Hcur Hsteps Hc Hp Hmiss.
  revert fuel current winning Hcur.
  induction Hsteps as [c|k u u1 c (ru & Hru & Hu1) _ IH]; intros fuel current winning Hcur Hfuel.
  - destruct fuel as [|[|fuel]]; [lia..|]. simpl.
    rewrite Hcur, Hc, Hp, Hmiss. by eexists.
  - destruct fuel as [|fuel]; [lia|]. simpl. rewrite Hcur, Hru.
    apply IH; [done..|lia].
Qed.

(** The ids such a walk meets: those up to [c], and the absent [p]. *)
Lemma chain_reach k u c rec p x :
  nsteps link k u c →
  by_uuid !! c = Some rec →
  get_truthy (parentUuid rec) = Some p →
  by_uuid !! p = None →
  rtc link u x ↔ x = p ∨ ∃ i, i ≤ k ∧ nsteps link i u x.
Proof.
  intros Hsteps Hc Hp Hmiss.
  assert (link c p) as Hcp by (by exists rec).
  split.
  - intros (j & Hj)%rtc_nsteps.
    destruct (decide (j ≤ k)) as [Hle|Hgt]; [right; by exists j|]. left.
    replace j with (k + S (j - S k)) in Hj by lia.
    apply nsteps_add_inv in Hj as (c' & Hk & Hrest).
    assert (c' = c) as -> by (by eapply nsteps_link_fun).
    inversion Hrest as [|? ? p' ? Hp' Hrest']; subst.
    assert (p' = p) as -> by (by eapply parent_link_fun).
    inversion Hrest' as [|? ? ? ? (r & Hr & _) _]; [done|congruence].
  - intros [->|(i & _ & Hi)].
    + eapply rtc_r; [|done]. by eapply rtc_nsteps_2.
    + by eapply rtc_nsteps_2.
Qed.
End chain_facts.

(** The records a returned path keeps. *)
Lemma raw_records_of_path recs S u :
  u ∈ S →
  (∀ x, x ∈ S ↔ rtc (parent_link (by_uuid_of recs)) u x) →
  ∀ r, r ∈ raw_records_of (Some S) recs
       ↔ r ∈ recs ∧ is_Some (message r) ∧ isMeta r = false
         ∧ (get_truthy (uuid r) = None
            ∨ ∃ v, get_truthy (uuid r) = Some v
                   ∧ rtc (parent_link (by_uuid_of recs)) u v).
Proof.
  intros HuS HS r. unfold raw_records_of. rewrite list_elem_of_filter. unfold kept.
  assert (winning_truthy (Some S) = Some S) as ->.
  { unfold winning_truthy. rewrite decide_False; [done|]. set_solver. }
  destruct (message r) as [m|]; [|split; [by intros [? _]|by intros (_ & [? ?] & _)]].
  destruct (isMeta r); [split; [by intros [? _]|by intros (_ & _ & ? & _)]|].
  destruct (get_truthy (uuid r)) as [v|] eqn:Hv.
  - rewrite bool_decide_eq_true, HS. split.
    + intros [? ?]. split_and!; [done|by eexists|done|]. right. by exists v.
    + intros (? & _ & _ & [?|(v' & [= <-] & ?)]); done.
  - split; [|by intros (? & _)]. intros [_ ?]. split_and!; [done|by eexists|done|by left].
Qed.

(** C3.  Let the walk from the chosen terminal, of id [u], reach after
    [k] parent links a record [c] whose declared parent [p] the index does
    not hold.  Then [find_winning_path] returns, within [k + 2] iterations
    of the loop, the ids met up to [c] together with the absent id [p],
    which the loop adds before it looks it up.  No record has the id [p]:
    used as the winning path, the set keeps the records with a message
    that are not meta and have no id or an id met up to [c]; and
    [parse_conversation] assembles the conversation from those. *)
Theorem winning_path_stops_at_missing_parent recs fuel t u k c rec p :
  latest_terminal_of recs = Some t →
  get_truthy (uuid t) = Some u →
  nsteps (parent_link (by_uuid_of recs)) k u c →
  by_uuid_of recs !! c = Some rec →
  get_truthy (parentUuid rec) = Some p →
  by_uuid_of recs !! p = None →
  k + 2 ≤ fuel →
  ∃ S,
    find_winning_path fuel recs = Done (Some S)
    ∧ (∀ x, x ∈ S ↔ x = p ∨ ∃ i, i ≤ k ∧ nsteps (parent_link (by_uuid_of recs)) i u x)
    ∧ (∀ r, r ∈ raw_records_of (Some S) recs
            ↔ r ∈ recs ∧ is_Some (message r) ∧ isMeta r = false
              ∧ (get_truthy (uuid r) = None
                 ∨ ∃ v i, get_truthy (uuid r) = Some v ∧ i ≤ k
                          ∧ nsteps (parent_link (by_uuid_of recs)) i u v))
    ∧ ∀ home netloc_path path stem lines,
        (load lines).2 = recs →
        parse_conversation home netloc_path fuel path stem lines
        = Done (assemble home netloc_path path stem (load lines).1
                  (raw_records_of (Some S) recs)).
Proof.
  intros Ht Hu Hsteps Hc Hp Hmiss Hfuel.
  destruct (walk_chain (by_uuid_of recs) k fuel (uuid t) u c rec p ∅)
    as [S HS]; [done..|].
  assert (find_winning_path fuel recs = Done (Some S)) as Hfind.
  { unfold find_winning_path. case_decide as He; [by rewrite He, lookup_empty in Hc|].
    by rewrite Ht, HS. }
  assert (∀ x, x ∈ S ↔ rtc (parent_link (by_uuid_of recs)) u x) as Hreach.
  { intros x. rewrite (walk_spec _ _ _ _ _ HS x), Hu. set_solver. }
  assert (∀ x, x ∈ S
               ↔ x = p ∨ ∃ i, i ≤ k ∧ nsteps (parent_link (by_uuid_of recs)) i u x) as HS'.
  { intros x. rewrite Hreach. by eapply chain_reach. }
  exists S. split_and!; [done..| |].
  - intros r. rewrite (raw_records_of_path recs S u); [|by apply Hreach|done].
    split.
    + intros (Hin & Hm & Hmeta & Hcase). split_and!; [done..|].
      destruct Hcase as [Hno|(v & Hv & Hr)]; [by left|].
      right. apply Hreach, HS' in Hr as [->|(i & Hi & Hsteps')].
      * destruct (by_uuid_of_is_Some recs r p Hin Hv) as [? ?]. congruence.
      * by exists v, i.
    + intros (Hin & Hm & Hmeta & Hcase). split_and!; [done..|].
      destruct Hcase as [Hno|(v & i & Hv & Hi & Hr)]; [by left|].
      right. exists v. split; [done|]. by eapply rtc_nsteps_2.
  - intros home netloc_path path stem lines Hload. unfold parse_conversation.
    destruct (load lines) as [scalars all_records]. simpl in *. subst all_records.
    destruct recs as [|r recs]; [by apply by_uuid_of_lookup in Hc as [?%elem_of_nil _]|].
    by rewrite Hfind.
Qed.

Lemma winning_path_stops_at_missing_parent_witness :
  ∃ S,
    find_winning_path 3 dangling_log = Done (Some S)
    ∧ (∀ x, x ∈ S
            ↔ x = "gone"
              ∨ ∃ i, i ≤ 1 ∧ nsteps (parent_link (by_uuid_of dangling_log)) i "c2" x)
    ∧ (∀ r, r ∈ raw_records_of (Some S) dangling_log
            ↔ r ∈ dangling_log ∧ is_Some (message r) ∧ isMeta r = false
              ∧ (get_truthy (uuid r) = None
                 ∨ ∃ v i, get_truthy (uuid r) = Some v ∧ i ≤ 1
                          ∧ nsteps (parent_link (by_uuid_of dangling_log)) i "c2" v))
    ∧ ∀ home netloc_path path stem lines,
        (load lines).2 = dangling_log →
        parse_conversation home netloc_path 3 path stem lines
        = Done (assemble home netloc_path path stem (load lines).1
                  (raw_records_of (Some S) dangling_log)).
Proof.
  apply (winning_path_stops_at_missing_parent dangling_log 3
           (node (Some "c2") (Some "c1") (Some "2024-01-01T10:01:00Z")) "c2" 1 "c1"
           (node (Some "c1") (Some "gone") (Some "2024-01-01T10:00:00Z")) "gone").
  - vm_compute. reflexivity.
  - reflexivity.
  - apply nsteps_once. eexists. split; [vm_compute; reflexivity|reflexivity].
  - vm_compute. reflexivity.
  - reflexivity.
  - vm_compute. reflexivity.
  - lia.
Defined.

(** The resolver on [dangling_log]: the terminal [c2], its parent [c1],
    and the id [gone] that [c1] names and no record has. *)
Example find_winning_path_dangling_log :
  find_winning_path 3 dangling_log = Done (Some {["c2"; "c1"; "gone"]}).
Proof. vm_compute. reflexivity. Qed.

(** ** The turn aggregator *)

Section grouping.
Context (q : string) (Hq : q ≠ "").

Lemma group_record_same st r :
  assistant_of q r → current_req_id st = Some q →
  group_record st r
  = {| turns := turns st; current_req_id := Some q;
       current_assistant_records := current_assistant_records st ++ [r] |}.
Proof.
  intros (m & Hm & Hrole & Hc & Hreq) Hcur. unfold group_record.
  rewrite Hm, Hc, Hrole, Hreq, Hcur. simpl.
  by rewrite bool_decide_eq_true_2.
Qed.

Lemma group_record_new st r :
  assistant_of q r → current_req_id st ≠ Some q →
  group_record st r
  = {| turns := turns (flush_assistant st); current_req_id := Some q;
       current_assistant_records := [r] |}.
Proof.
  intros (m & Hm & Hrole & Hc & Hreq) Hcur. unfold group_record.
  rewrite Hm, Hc, Hrole, Hreq. simpl.
  rewrite bool_decide_eq_false_2; [done|]. by intros [_ ?].
Qed.

Lemma group_run_same l st :
  Forall (assistant_of q) l → current_req_id st = Some q →
  foldl group_record st l
  = {| turns := turns st; current_req_id := Some q;
       current_assistant_records := current_assistant_records st ++ l |}.
Proof.
  revert st. induction l as [|r l IH]; intros st Hl Hcur; simpl.
  - rewrite app_nil_r. destruct st; simpl in *; by subst.
  - apply Forall_cons in Hl as [Hr Hl].
    rewrite (group_record_same st r Hr Hcur), IH by done. simpl.
    by rewrite <-app_assoc.
Qed.

(** A run of records of request [q], met in a state that is not
    collecting [q], becomes the pending group, whole and alone. *)
Lemma group_run_new l st :
  l ≠ [] → Forall (assistant_of q) l → current_req_id st ≠ Some q →
  foldl group_record st l
  = {| turns := turns (flush_assistant st); current_req_id := Some q;
       current_assistant_records := l |}.
Proof.
  destruct l as [|r l]; [done|]. intros _ [Hr Hl]%Forall_cons Hcur. simpl.
  rewrite (group_record_new st r Hr Hcur), group_run_same by done. done.
Qed.
End grouping.

Lemma group_record_user st r :
  user_with_content r →
  group_record st r
  = {| turns := turns (flush_assistant st) ++ [(RoleUser, [r])];
       current_req_id := None; current_assistant_records := [] |}.
Proof.
  intros (m & Hm & Hrole & Hc). unfold group_record. by rewrite Hm, Hc, Hrole.
Qed.

(** The invariant of the grouping loop. *)
Lemma flush_assistant_turns st :
  turns (flush_assistant st)
  = turns st ++ match current_assistant_records st with
                | [] => []
                | l => [(RoleAssistant, l)]
                end.
Proof. unfold flush_assistant. destruct (current_assistant_records st); simpl; [by rewrite app_nil_r|done]. Qed.

Lemma group_inv_flush st done :
  group_inv st done →
  concat (map snd (turns (flush_assistant st))) = filter (λ r, grouped r = true) done
  ∧ Forall well_formed_turn (turns (flush_assistant st)).
Proof.
  intros (Hcat & Hwf & Hcur). rewrite flush_assistant_turns.
  destruct (current_assistant_records st) as [|r l] eqn:E.
  - rewrite !app_nil_r in *. done.
  - rewrite map_app, concat_app. simpl. rewrite app_nil_r. split; [done|].
    apply Forall_app. split; [done|]. apply Forall_singleton.
    destruct Hcur as [|(q & _ & Hall & Hq)]; [done|].
    split; [done|]. by exists q.
Qed.

Lemma filter_grouped_snoc done r :
  filter (λ r, grouped r = true) (done ++ [r])
  = filter (λ r, grouped r = true) done ++ (if grouped r then [r] else []).
Proof.
  rewrite filter_app, filter_cons, filter_nil.
  destruct (grouped r); [by rewrite decide_True|by rewrite decide_False].
Qed.

Lemma group_record_skip st r : grouped r = false → group_record st r = st.
Proof.
  unfold grouped, group_record. destruct (message r) as [m|]; [|done].
  destruct (content_truthy (msg_content m)); [|done]. simpl.
  destruct (role m); [by rewrite bool_decide_eq_true_2..|done].
Qed.

Lemma group_record_assistant st r q :
  assistant_req q r →
  group_record st r
  = if bool_decide (q ≠ "" ∧ Some q = current_req_id st)
    then {| turns := turns st; current_req_id := current_req_id st;
            current_assistant_records := current_assistant_records st ++ [r] |}
    else {| turns := turns (flush_assistant st); current_req_id := Some q;
            current_assistant_records := [r] |}.
Proof.
  intros (m & Hm & Hrole & Hc & Hq). unfold group_record.
  by rewrite Hm, Hc, Hrole, Hq.
Qed.

Lemma grouped_true r :
  grouped r = true → user_with_content r ∨ ∃ q, assistant_req q r.
Proof.
  unfold grouped. destruct (message r) as [m|] eqn:Hm; [|done].
  intros [Hc Hrole%bool_decide_eq_true]%andb_true_iff.
  destruct (role m) eqn:E; [left|right|done].
  - by exists m.
  - exists (default "" (requestId r)), m. done.
Qed.

Lemma group_inv_step st done r :
  group_inv st done → group_inv (group_record st r) (done ++ [r]).
Proof.
  intros Hinv. pose proof Hinv as (Hcat & Hwf & Hcur).
  destruct (group_inv_flush st done Hinv) as [Hcat' Hwf'].
  unfold group_inv. rewrite filter_grouped_snoc.
  destruct (grouped r) eqn:Hg.
  2:{ rewrite (group_record_skip _ _ Hg), app_nil_r. done. }
  destruct (grouped_true r Hg) as [Hu|[q Hr]].
  - rewrite (group_record_user _ _ Hu).
    cbn [turns current_req_id current_assistant_records].
    rewrite map_app, concat_app, Hcat'. simpl. rewrite !app_nil_r.
    split_and!; [done| |by left].
    apply Forall_app. split; [done|]. apply Forall_singleton. by exists r.
  - rewrite (group_record_assistant _ _ q Hr).
    case_bool_decide as Hsame; cbn [turns current_req_id current_assistant_records].
    + destruct Hsame as [Hne Heq]. split_and!; [by rewrite app_assoc, Hcat|done|].
      right. exists q. split; [done|].
      destruct Hcur as [->|(q' & Hq' & Hall & _)].
      * split; [by apply Forall_singleton|]. simpl. lia.
      * assert (q' = q) as -> by congruence.
        split; [|done]. apply Forall_app. split; [done|]. by apply Forall_singleton.
    + rewrite Hcat'. split_and!; [done..|].
      right. exists q. split; [done|].
      split; [by apply Forall_singleton|]. simpl. lia.
Qed.

Lemma group_inv_foldl raw :
  group_inv
    (foldl group_record
       {| turns := []; current_req_id := None; current_assistant_records := [] |} raw)
    raw.
Proof.
  induction raw as [|r raw IH] using rev_ind.
  - split_and!; [done|constructor|by left].
  - rewrite foldl_app. simpl. by apply group_inv_step.
Qed.

Lemma flush_prefix T ts cur pending :
  turns (flush_assistant
           {| turns := T ++ ts; current_req_id := cur; current_assistant_records := pending |})
  = T ++ turns (flush_assistant
                  {| turns := ts; current_req_id := cur;
                     current_assistant_records := pending |}).
Proof. rewrite !flush_assistant_turns. cbn. by rewrite app_assoc. Qed.

Lemma group_record_prefix T st r :
  group_record {| turns := T ++ turns st; current_req_id := current_req_id st;
                  current_assistant_records := current_assistant_records st |} r
  = {| turns := T ++ turns (group_record st r);
       current_req_id := current_req_id (group_record st r);
       current_assistant_records := current_assistant_records (group_record st r) |}.
Proof.
  unfold group_record. destruct (message r) as [m|]; [|done].
  destruct (content_truthy (msg_content m)); [|done].
  destruct (role m); cbn [turns current_req_id current_assistant_records]; [| |done].
  - destruct st as [ts cur pending]. rewrite flush_prefix. cbn. by rewrite app_assoc.
  - case_bool_decide; [done|]. destruct st as [ts cur pending].
    by rewrite flush_prefix.
Qed.

Lemma group_fold_prefix T l st :
  foldl group_record
    {| turns := T ++ turns st; current_req_id := current_req_id st;
       current_assistant_records := current_assistant_records st |} l
  = {| turns := T ++ turns (foldl group_record st l);
       current_req_id := current_req_id (foldl group_record st l);
       current_assistant_records := current_assistant_records (foldl group_record st l) |}.
Proof.
  revert st. induction l as [|r l IH]; intros st; [done|].
  cbn [foldl]. by rewrite group_record_prefix, IH.
Qed.

(** Turns that are closed stay as they are: the grouping of what follows
    is added after them. *)
Lemma finish_prefix T cur pending l :
  turns (flush_assistant
           (foldl group_record
              {| turns := T; current_req_id := cur;
                 current_assistant_records := pending |} l))
  = T ++ turns (flush_assistant
                  (foldl group_record
                     {| turns := []; current_req_id := cur;
                        current_assistant_records := pending |} l)).
Proof.
  pose proof (group_fold_prefix T l
                {| turns := []; current_req_id := cur;
                   current_assistant_records := pending |}) as E.
  cbn [turns current_req_id current_assistant_records] in E.
  rewrite app_nil_r in E. rewrite E.
  destruct (foldl group_record _ l) as [ts c p]. apply flush_prefix.
Qed.

Lemma group_fold_skip l st :
  foldl group_record st l = foldl group_record st (filter (λ r, grouped r = true) l).
Proof.
  revert st. induction l as [|r l IH]; intros st; [done|].
  rewrite filter_cons. cbn [foldl]. case_decide as Hg.
  - cbn [foldl]. apply IH.
  - rewrite group_record_skip; [apply IH|]. by destruct (grouped r).
Qed.

Lemma group_turns_skip raw :
  group_turns raw = group_turns (filter (λ r, grouped r = true) raw).
Proof. unfold group_turns. by rewrite <-group_fold_skip. Qed.

Lemma assistant_req_fun q q' r : assistant_req q r → assistant_req q' r → q = q'.
Proof. intros (m & _ & _ & _ & <-) (m' & _ & _ & _ & <-). done. Qed.

(** A record that closes the pending turn of [q] acts as on the state
    before the first record, after the turn it closed. *)
Lemma group_record_closes q T pending r :
  pending ≠ [] → closes_turn q r →
  group_record {| turns := T; current_req_id := Some q;
                  current_assistant_records := pending |} r
  = {| turns := (T ++ [(RoleAssistant, pending)]) ++ turns (group_record no_turn r);
       current_req_id := current_req_id (group_record no_turn r);
       current_assistant_records := current_assistant_records (group_record no_turn r) |}.
Proof.
  intros Hp [Hu|(q' & Hne & Hq')].
  - rewrite !(group_record_user _ _ Hu), !flush_assistant_turns. cbn.
    by destruct pending.
  - rewrite !(group_record_assistant _ _ q' Hq').
    cbn [current_req_id]. rewrite !bool_decide_eq_false_2.
    + rewrite !flush_assistant_turns. cbn. destruct pending; [done|]. by rewrite !app_nil_r.
    + by intros [_ ?].
    + intros [_ [= ->]]. done.
Qed.

Section run_facts.
Context (q : string) (Hq : q ≠ "").

(** A pending turn of [q] ends up as one turn, with the records of [q]
    that follow it at once. *)
Lemma finish_pending T pending post :
  pending ≠ [] →
  ∃ after T2,
    turns (flush_assistant
             (foldl group_record
                {| turns := T; current_req_id := Some q;
                   current_assistant_records := pending |} post))
    = T ++ (RoleAssistant, pending ++ after) :: T2.
Proof.
  revert pending. induction post as [|r post IH]; intros pending Hp.
  - exists [], []. cbn [foldl]. rewrite flush_assistant_turns. cbn.
    destruct pending; [done|]. by rewrite app_nil_r.
  - cbn [foldl]. destruct (grouped r) eqn:Hg.
    2:{ rewrite (group_record_skip _ _ Hg). by apply IH. }
    destruct (grouped_true r Hg) as [Hu|[q' Hr]].
    + rewrite (group_record_closes q T pending r Hp) by by left.
      rewrite finish_prefix. eexists [], _. rewrite app_nil_r, <-!app_assoc. reflexivity.
    + destruct (decide (q' = q)) as [->|Hne].
      * rewrite (group_record_assistant _ _ q Hr). cbn [current_req_id].
        rewrite bool_decide_eq_true_2 by done.
        cbn [turns current_assistant_records].
        destruct (IH (pending ++ [r])) as (after & T2 & E); [by destruct pending|].
        exists (r :: after), T2. rewrite E. by rewrite <-app_assoc.
      * rewrite (group_record_closes q T pending r Hp) by (right; by exists q').
        rewrite finish_prefix. eexists [], _. rewrite app_nil_r, <-!app_assoc. reflexivity.
Qed.

(** The state after a run of records of [q]. *)
Lemma group_run l st :
  l ≠ [] → Forall (assistant_of q) l →
  ∃ T before,
    foldl group_record st l
    = {| turns := T; current_req_id := Some q;
         current_assistant_records := before ++ l |}.
Proof.
  intros Hl Hall. destruct (decide (current_req_id st = Some q)) as [Hcur|Hcur].
  - rewrite (group_run_same q Hq l st) by done. by eexists _, _.
  - rewrite (group_run_new q Hq l st) by done. by eexists _, [].
Qed.

Lemma group_run_maximal l pre :
  l ≠ [] → Forall (assistant_of q) l →
  (∀ r, last (filter (λ r, grouped r = true) pre) = Some r → closes_turn q r) →
  foldl group_record (foldl group_record no_turn pre) l
  = {| turns := group_turns pre; current_req_id := Some q;
       current_assistant_records := l |}.
Proof.
  intros Hl Hall Hleft. unfold group_turns. fold no_turn.
  pose proof (group_inv_foldl pre) as (Hcat & _ & Hcur). fold no_turn in Hcat, Hcur.
  set (st := foldl group_record no_turn pre) in *.
  destruct (decide (current_req_id st = Some q)) as [Hsame|Hother].
  - rewrite (group_run_same q Hq l st) by done.
    destruct (current_assistant_records st) as [|p0 ps] eqn:Hp.
    + rewrite flush_assistant_turns, Hp. cbn. by rewrite app_nil_r.
    + exfalso.
      destruct Hcur as [?|(q' & Hq' & Hreq & _)]; [done|].
      assert (q' = q) as -> by congruence.
      destruct (last (p0 :: ps)) as [p|] eqn:Hlast; [|by apply last_None in Hlast].
      assert (last (filter (λ r, grouped r = true) pre) = Some p) as Hlast'.
      { by rewrite <-Hcat, last_app, Hlast. }
      apply last_Some in Hlast as [ps' Hps]. rewrite Hps in Hreq.
      apply Forall_app in Hreq as [_ Hreq]. rewrite Forall_singleton in Hreq.
      destruct (Hleft p Hlast') as [(m & Hm & Hrole & _)|(q' & Hne & Hq'')].
      * destruct Hreq as (m' & Hm' & Hrole' & _). congruence.
      * apply Hne. by eapply assistant_req_fun.
  - by rewrite (group_run_new q Hq l st).
Qed.
End run_facts.

Lemma omap_cons_app {A B} (f : A → option B) x l :
  omap f (x :: l) = option_list (f x) ++ omap f l.
Proof. cbn. by destruct (f x). Qed.

Lemma build_turn_fst home netloc_path asks st turn :
  (build_turn home netloc_path asks st turn).1
  = st.1 ++ option_list (turn_message home netloc_path asks turn).
Proof.
  destruct turn as [role records]. unfold build_turn, turn_message.
  destruct role.
  - destruct (head records ≫= user_turn asks); cbn; [done|by rewrite app_nil_r].
  - done.
  - destruct (head records ≫= user_turn asks); cbn; [done|by rewrite app_nil_r].
Qed.

Lemma build_messages_omap home netloc_path asks turns :
  (build_messages home netloc_path asks turns).1
  = omap (turn_message home netloc_path asks) turns.
Proof.
  unfold build_messages.
  assert (∀ st, (foldl (build_turn home netloc_path asks) st turns).1
                = st.1 ++ omap (turn_message home netloc_path asks) turns) as H.
  { induction turns as [|turn turns IH]; intros st; [by rewrite app_nil_r|].
    cbn [foldl]. by rewrite IH, build_turn_fst, omap_cons_app, app_assoc. }
  apply (H ([], None)).
Qed.

(** C4, amended.  Let [l] be a non-empty run of consecutive assistant
    records with non-empty content that share the non-empty request id
    [q], anywhere in a log.  The records of [l] lie in one assistant turn,
    together with the records of [q] that adjoin them.  When [l] is such
    a run at its longest, that is when the nearest record before it and
    the nearest record after it that take part in a turn are user records
    or assistant records of another request id, [l] is exactly one turn,
    between the turns of what precedes and the turns of what follows: a
    change of request id and a user record both close the turn.  A record
    that takes no part in a turn (its content is empty) is skipped: the
    turns are those of the log without it.  And every turn gives at most
    one message of the conversation, in turn order. *)
Theorem same_request_id_records_form_one_turn q l pre post :
  q ≠ "" → l ≠ [] → Forall (assistant_of q) l →
  (∃ T1 before after T2,
     group_turns (pre ++ l ++ post)
     = T1 ++ (RoleAssistant, before ++ l ++ after) :: T2)
  ∧ ((∀ r, last (filter (λ r, grouped r = true) pre) = Some r → closes_turn q r) →
     (∀ r, head (filter (λ r, grouped r = true) post) = Some r → closes_turn q r) →
     group_turns (pre ++ l ++ post)
     = group_turns pre ++ (RoleAssistant, l) :: group_turns post)
  ∧ (∀ raw, group_turns raw = group_turns (filter (λ r, grouped r = true) raw))
  ∧ (∀ home netloc_path raw,
       (messages_of home netloc_path raw).1
       = omap (turn_message home netloc_path (collect_asks raw)) (group_turns raw)).
Proof.
  intros Hq Hl Hall. split_and!.
  - unfold group_turns. fold no_turn. rewrite !foldl_app.
    destruct (group_run q Hq l (foldl group_record no_turn pre) Hl Hall)
      as (T & before & ->).
    destruct (finish_pending q Hq T (before ++ l) post) as (after & T2 & ->);
      [by destruct before, l|].
    exists T, before, after, T2. by rewrite <-app_assoc.
  - intros Hleft Hright. unfold group_turns at 1. fold no_turn. rewrite !foldl_app.
    rewrite (group_run_maximal q Hq l pre Hl Hall Hleft).
    rewrite finish_prefix. f_equal.
    rewrite group_fold_skip, (group_turns_skip post).
    destruct (filter (λ r, grouped r = true) post) as [|r fp] eqn:Hfp.
    + cbn [foldl]. rewrite flush_assistant_turns. cbn. by destruct l.
    + cbn [foldl]. rewrite (group_record_closes q [] l r Hl) by by apply Hright.
      rewrite finish_prefix. unfold group_turns. fold no_turn. cbn [foldl app].
      f_equal. destruct (group_record no_turn r) as [ts c p]. cbn [turns current_req_id current_assistant_records]. symmetry. apply finish_prefix.
  - apply group_turns_skip.
  - intros home netloc_path raw. apply build_messages_omap.
Qed.

Lemma same_request_id_records_form_one_turn_witness :
  group_turns ([user_reply] ++ [first_chunk; second_chunk] ++ [empty_user; other_request])
  = group_turns [user_reply]
    ++ (RoleAssistant, [first_chunk; second_chunk])
       :: group_turns [empty_user; other_request].
Proof.
  destruct (same_request_id_records_form_one_turn "req_1" [first_chunk; second_chunk]
              [user_reply] [empty_user; other_request]) as (_ & Hturn & _).
  - discriminate.
  - discriminate.
  - repeat constructor; eexists; repeat split; reflexivity.
  - apply Hturn.
    + intros r Hr. vm_compute in Hr. injection Hr as <-.
      left. eexists. repeat split; reflexivity.
    + intros r Hr. vm_compute in Hr. injection Hr as <-.
      right. exists "req_2". split; [discriminate|]. eexists. repeat split; reflexivity.
Defined.

(** C4, counterexample.  An assistant record with a non-empty request id
    and an empty content forms no turn at all, and a user record with an
    empty content between two records of one request does not separate
    them. *)
Lemma empty_content_neither_forms_nor_closes_a_turn :
  assistant_record "req_1" empty_chunk
  ∧ group_turns [empty_chunk] = []
  ∧ assistant_record "req_1" first_chunk
  ∧ user_record empty_user
  ∧ assistant_record "req_1" second_chunk
  ∧ group_turns [first_chunk; empty_user; second_chunk]
    = [(RoleAssistant, [first_chunk; second_chunk])].
Proof.
  split_and!; try reflexivity; eexists; repeat split; reflexivity.
Qed.

(** ** Interactive questions and their answers *)

Lemma collect_asks_flat raw :
  collect_asks raw
  = foldl ask_part {| ask_questions := ∅; ask_answers := ∅ |}
      (concat (map record_parts raw)).
Proof.
  unfold collect_asks. generalize {| ask_questions := ∅; ask_answers := ∅ |}.
  induction raw as [|r raw IH]; intros st; simpl; [done|].
  by rewrite foldl_app, IH.
Qed.

Section ask_facts.
Context (i : string).

Lemma ask_part_question_kept st part :
  is_Some (ask_questions st !! i) → is_Some (ask_questions (ask_part st part) !! i).
Proof.
  intros Hi. destruct part as [|j name inp|j res|]; simpl; [done| | |done].
  - case_decide; [|done]. simpl.
    destruct (decide (j = i)) as [->|]; [rewrite lookup_insert_eq; by eexists|].
    by rewrite lookup_insert_ne.
  - by case_decide.
Qed.

Lemma ask_parts_question_kept parts st :
  is_Some (ask_questions st !! i) →
  is_Some (ask_questions (foldl ask_part st parts) !! i).
Proof.
  revert st. induction parts as [|p parts IH]; intros st Hi; simpl; [done|].
  by apply IH, ask_part_question_kept.
Qed.

(** Parts with no result addressed to [i] leave its answer as it is. *)
Lemma ask_parts_no_result parts st :
  (∀ res, PToolResult i res ∉ parts) →
  ask_answers (foldl ask_part st parts) !! i = ask_answers st !! i.
Proof.
  revert st. induction parts as [|p parts IH]; intros st Hno; simpl; [done|].
  rewrite IH by set_solver.
  destruct p as [|j name inp|j res|]; simpl; [done| | |done].
  - by case_decide.
  - case_decide; [|done]. simpl. rewrite lookup_insert_ne; [done|].
    intros ->. apply (Hno res). set_solver.
Qed.

(** Before the first invocation of [i], results addressed to [i] are
    ignored. *)
Lemma ask_parts_not_asked parts st :
  (∀ inp, PToolUse i "AskUserQuestion" inp ∉ parts) →
  ask_questions st !! i = None →
  ask_questions (foldl ask_part st parts) !! i = None
  ∧ ask_answers (foldl ask_part st parts) !! i = ask_answers st !! i.
Proof.
  revert st. induction parts as [|p parts IH]; intros st Hno Hq; simpl; [done|].
  assert (ask_questions (ask_part st p) !! i = None
          ∧ ask_answers (ask_part st p) !! i = ask_answers st !! i) as [Hq' Ha'].
  { destruct p as [|j name inp|j res|]; simpl; [done| | |done].
    - case_decide as Hn; [|done]. simpl. split; [|done].
      rewrite lookup_insert_ne; [done|]. intros ->. subst name.
      apply (Hno inp). set_solver.
    - case_decide as Hj; [|done]. simpl. split; [done|].
      rewrite lookup_insert_ne; [done|]. intros ->.
      rewrite Hq in Hj. by destruct Hj. }
  destruct (IH (ask_part st p)) as [? ?]; [set_solver|done|].
  split; [done|congruence].
Qed.

Lemma answer_of_last_result raw pre inp mid res post :
  concat (map record_parts raw)
  = pre ++ PToolUse i "AskUserQuestion" inp :: mid ++ PToolResult i res :: post →
  (∀ res', PToolResult i res' ∉ post) →
  get_answer (collect_asks raw) i = parse_ask_answer res.
Proof.
  intros Hparts Hno. unfold get_answer.
  rewrite collect_asks_flat, Hparts, foldl_app. simpl.
  rewrite foldl_app. simpl.
  rewrite ask_parts_no_result by done.
  set (st := foldl ask_part _ mid).
  assert (is_Some (ask_questions st !! i)) as Hi.
  { apply ask_parts_question_kept. simpl.
    rewrite lookup_insert_eq. by eexists. }
  simpl. rewrite decide_True by done. simpl. by rewrite lookup_insert_eq.
Qed.

Lemma answer_without_result raw pre inp post :
  concat (map record_parts raw) = pre ++ PToolUse i "AskUserQuestion" inp :: post →
  (∀ inp', PToolUse i "AskUserQuestion" inp' ∉ pre) →
  (∀ res, PToolResult i res ∉ post) →
  get_answer (collect_asks raw) i = None.
Proof.
  intros Hparts Hfirst Hno. unfold get_answer.
  rewrite collect_asks_flat, Hparts, foldl_app. simpl.
  rewrite ask_parts_no_result by done.
  simpl.
  destruct (ask_parts_not_asked pre {| ask_questions := ∅; ask_answers := ∅ |})
    as [_ Ha]; [done|done|].
  by rewrite Ha.
Qed.
End ask_facts.

Lemma parse_ask_answer_is_Some res :
  is_Some (parse_ask_answer res) ↔ ∃ c, result_text res = Some c ∧ recognised c.
Proof.
  unfold parse_ask_answer, recognised.
  destruct (result_text res) as [c|]; [|split; [by intros [? [=]]|by intros (? & [=] & _)]].
  split.
  - intros Hs. exists c. split; [done|].
    destruct (contains c "User has answered your questions:") eqn:E1.
    + destruct (findall_pairs c) as [|pr prs] eqn:E2; [|by left].
      right. destruct (contains c "doesn't want to proceed"); [by left|right].
      destruct (contains (lower c) "user wants to clarify"); [done|].
      simpl in Hs. by destruct Hs.
    + right. destruct (contains c "doesn't want to proceed"); [by left|right].
      destruct (contains (lower c) "user wants to clarify"); [done|].
      simpl in Hs. by destruct Hs.
  - intros (c' & [= <-] & H).
    destruct H as [[H1 H2]|H].
    + rewrite H1. destruct (findall_pairs c); [done|by eexists].
    + destruct (if contains c "User has answered your questions:"
                then findall_pairs c else []); [|by eexists].
      assert (contains c "doesn't want to proceed"
              || contains (lower c) "user wants to clarify" = true) as ->.
      { destruct H as [->| ->]; [done|by rewrite orb_true_r]. }
      cbv zeta. repeat case_match; by eexists.
Qed.

Section pairing.
Context (home : string) (netloc_path : string → string) (asks : AskState).

Lemma enrich_part_question st i inp :
  e_question_answers
    (enrich_part home netloc_path asks st (PToolUse i "AskUserQuestion" inp))
  = e_question_answers st ++ [qa_block asks i inp].
Proof. done. Qed.

Lemma format_unanswered i inp :
  get_answer asks i = None →
  format_question_answer (qa_block asks i inp)
  = join nl (concat (map question_lines (questions inp))
             ++ [">"; "> **Answer:** [No answer recorded]"]).
Proof.
  intros Ha. unfold format_question_answer, answer_line, qa_block. simpl.
  by rewrite Ha.
Qed.

(** A user record made of answers to questions and of text that is
    not meaningful yields no turn. *)
Lemma user_turn_only_answers record m parts :
  message record = Some m → msg_content m = CList parts →
  Forall (λ p, (∃ t, p = PText t)
               ∨ ∃ j res, p = PToolResult j res ∧ j ∈ dom (ask_questions asks)) parts →
  is_meaningful (join (nl +:+ nl) (omap user_part_text parts)) = false →
  user_turn asks record = None.
Proof.
  intros Hm Hc Hparts Htext. unfold user_turn. rewrite Hm.
  destruct m as [r c]. simpl in Hc. subst c. cbv zeta. rewrite Htext. simpl.
  destruct (forallb _ parts); simpl; [done|]. by rewrite Htext.
Qed.
End pairing.

(** C5, amended.  For an [AskUserQuestion] invocation of id [i] among the
    parts of the filtered records: the turn that holds it gets one Q&A
    block for it; when a result addressed to [i] comes later, the answer of
    the block is what [parse_ask_answer] makes of the last such result,
    which is a value exactly when the result text has one of the two known
    forms; when no result addressed to [i] comes later (and [i] was not
    asked before), the answer is null and the block ends with the
    no-answer marker; and a user record whose parts are results answering
    question invocations, or text, with no meaningful text, adds no turn. *)
Theorem question_block_answer_is_parsed_result home netloc_path raw i inp pre post :
  concat (map record_parts raw) = pre ++ PToolUse i "AskUserQuestion" inp :: post →
  (∀ st, e_question_answers
           (enrich_part home netloc_path (collect_asks raw) st
              (PToolUse i "AskUserQuestion" inp))
         = e_question_answers st ++ [qa_block (collect_asks raw) i inp])
  ∧ (∀ mid res post',
       post = mid ++ PToolResult i res :: post' →
       (∀ res', PToolResult i res' ∉ post') →
       answer (qa_block (collect_asks raw) i inp) = parse_ask_answer res
       ∧ (is_Some (parse_ask_answer res) ↔ ∃ c, result_text res = Some c ∧ recognised c))
  ∧ ((∀ inp', PToolUse i "AskUserQuestion" inp' ∉ pre) →
     (∀ res, PToolResult i res ∉ post) →
     answer (qa_block (collect_asks raw) i inp) = None
     ∧ format_question_answer (qa_block (collect_asks raw) i inp)
       = join nl (concat (map question_lines (questions inp))
                  ++ [">"; "> **Answer:** [No answer recorded]"]))
  ∧ (∀ record m parts st,
       message record = Some m → msg_content m = CList parts →
       Forall (λ p, (∃ t, p = PText t)
                    ∨ ∃ j res, p = PToolResult j res
                               ∧ j ∈ dom (ask_questions (collect_asks raw))) parts →
       is_meaningful (join (nl +:+ nl) (omap user_part_text parts)) = false →
       build_turn home netloc_path (collect_asks raw) st (RoleUser, [record]) = st).
Proof.
  intros Hparts. split_and!.
  - intros st. apply enrich_part_question.
  - intros mid res post' -> Hno. split; [|apply parse_ask_answer_is_Some].
    simpl. by eapply answer_of_last_result.
  - intros Hfirst Hno.
    assert (get_answer (collect_asks raw) i = None) as Ha
      by by eapply answer_without_result.
    split; [done|]. by apply format_unanswered.
  - intros record m parts st Hm Hc Hall Htext. simpl.
    by rewrite (user_turn_only_answers _ record m parts).
Qed.

Lemma question_block_answer_is_parsed_result_witness :
  answer (qa_block (collect_asks declined_log) "toolu_1" colour_question)
  = Some "[User requested clarification]".
Proof.
  destruct (question_block_answer_is_parsed_result "/home/u" (λ u, u) declined_log
              "toolu_1" colour_question []
              [PToolResult "toolu_1"
                 (RStr "The user doesn't want to proceed with this tool use.")]
              eq_refl) as (_ & Hlater & _).
  destruct (Hlater [] (RStr "The user doesn't want to proceed with this tool use.") []
              eq_refl) as [Hanswer _].
  - intros res' Hin. inversion Hin.
  - rewrite Hanswer. vm_compute. reflexivity.
Defined.

(** C5, counterexample.  The question of [unparsed_log] is followed by a
    result addressed to it, yet the block of the turn has a null answer
    and is rendered with the no-answer marker. *)
Lemma later_result_without_known_form_gives_null_answer :
  concat (map record_parts unparsed_log)
  = [ PToolUse "toolu_1" "AskUserQuestion" colour_question;
      PToolResult "toolu_1" (RStr "ok") ]
  ∧ question_answers <$> (messages_of "/home/u" (λ u, u) unparsed_log).1
    = [ [ {| qa_questions := questions colour_question; answer := None |} ] ]
  ∧ answer_line {| qa_questions := questions colour_question; answer := None |}
    = "> **Answer:** [No answer recorded]".
Proof. split_and!; vm_compute; reflexivity. Qed.

(** ** File-write snapshots *)





(** The line count is one more than the number of newlines: a final
    newline counts as the start of one more line. *)
Example line_count_with_final_newline :
  line_count (join nl (replicate 200 "x")) = 200
  ∧ line_count (join nl (replicate 200 "x") +:+ nl) = 201.
Proof. split; vm_compute; reflexivity. Qed.

(** ** Loader *)

Lemma load_snoc lines line :
  load (lines ++ [line]) = load_line (load lines) line.
Proof. unfold load. by rewrite foldl_app. Qed.

Lemma last_omap_snoc {A B} (f : A → option B) l x :
  last (omap f (l ++ [x])) = overwrite (f x) (last (omap f l)).
Proof.
  rewrite omap_app. simpl. destruct (f x) as [y|]; simpl.
  - by rewrite last_snoc.
  - by rewrite app_nil_r.
Qed.

Lemma load_spec lines :
  (load lines).2 = omap id lines
  ∧ session_id (load lines).1 = last (omap sessionId (omap id lines))
  ∧ project_path (load lines).1 = last (omap cwd (omap id lines))
  ∧ last_timestamp (load lines).1 = last (omap timestamp (omap id lines)).
Proof.
  induction lines as [|line lines (IH1 & IH2 & IH3 & IH4)] using rev_ind; [done|].
  rewrite load_snoc, omap_app. destruct line as [r|]; simpl.
  - rewrite IH1, IH2, IH3, IH4, !last_omap_snoc. done.
  - by rewrite !app_nil_r.
Qed.

(** C7, amended.  The loader keeps the records of the lines that
    deserialize, in order, and each of the three scalars is the last
    occurrence of its key in file order: the session identifier (empty or
    not), the working path, the timestamp.  In the summary an empty or
    absent session identifier is replaced by the stem of the file. *)
Theorem loader_scalars_are_last_occurrences lines :
  (load lines).2 = omap id lines
  ∧ session_id (load lines).1 = last (omap sessionId (load lines).2)
  ∧ project_path (load lines).1 = last (omap cwd (load lines).2)
  ∧ last_timestamp (load lines).1 = last (omap timestamp (load lines).2)
  ∧ ∀ home netloc_path fuel path stem conv,
      parse_conversation home netloc_path fuel path stem lines = Done (Some conv) →
      conv_session_id conv
      = default stem (get_truthy (last (omap sessionId (load lines).2)))
      ∧ project conv = last (omap cwd (load lines).2)
      ∧ conv_last_timestamp conv = last (omap timestamp (load lines).2).
Proof.
  destruct (load_spec lines) as (H1 & H2 & H3 & H4).
  rewrite <-H1 in H2, H3, H4. split_and!; [done..|].
  intros home netloc_path fuel path stem conv. unfold parse_conversation.
  rewrite <-H2, <-H3, <-H4. clear.
  destruct (load lines) as [scalars all_records]. simpl.
  destruct all_records; [done|].
  destruct (find_winning_path _ _); [done|].
  unfold assemble. destruct (raw_records_of _ _); [done|].
  destruct (messages_of _ _ _) as [[|m ms] first]; [done|].
  by intros [= <-].
Qed.

(** C7, counterexample.  In [session_lines] the last session identifier
    is empty: the loader holds the empty one, not the last non-empty one,
    and the summary falls back to the stem of the file.  The timestamp
    kept is the last one, which is not the greatest. *)
Lemma empty_session_id_replaces_earlier_one :
  session_id (load session_lines).1 = Some ""
  ∧ last_nonempty_session_id session_lines = Some "abc"
  ∧ last_timestamp (load session_lines).1 = Some "2024-03-01T09:00:00Z"
  ∧ match parse_conversation "/home/u" (λ u, u) 3 "/p/abc-1.jsonl" "abc-1" session_lines with
    | Done (Some conv) => conv_session_id conv = "abc-1"
    | _ => False
    end.
Proof. split_and!; vm_compute; reflexivity. Qed.

(** ** Export *)

Lemma startswith_refl s : startswith s s = true.
Proof.
  unfold startswith. induction s as [|c s IH]; simpl; [done|].
  by destruct (ascii_dec c c).
Qed.

Lemma loader_scalars_are_last_occurrences_witness :
  match parse_conversation "/home/u" (λ u, u) 3 "/p/abc-1.jsonl" "abc-1" session_lines with
  | Done (Some conv) =>
      project conv = Some "/work/two"
      ∧ conv_last_timestamp conv = Some "2024-03-01T09:00:00Z"
  | _ => False
  end.
Proof.
  destruct (loader_scalars_are_last_occurrences session_lines)
    as (_ & _ & _ & _ & Hconv).
  specialize (Hconv "/home/u" (λ u, u) 3 "/p/abc-1.jsonl" "abc-1").
  destruct (parse_conversation _ _ _ _ _ _) as [|[conv|]] eqn:E.
  - vm_compute in E. discriminate.
  - destruct (Hconv conv eq_refl) as (_ & -> & ->). split; vm_compute; reflexivity.
  - vm_compute in E. discriminate.
Defined.

Lemma files_print line w : files (print line w) = files w.
Proof. done. Qed.

Lemma stdout_prints lines w :
  stdout (foldl (λ w line, print line w) w lines) = stdout w ++ lines
  ∧ files (foldl (λ w line, print line w) w lines) = files w.
Proof.
  revert w. induction lines as [|l lines IH]; intros w; simpl.
  - by rewrite app_nil_r.
  - destruct (IH (print l w)) as [-> ->]. simpl. by rewrite <-app_assoc.
Qed.

Lemma files_prints lines w :
  files (foldl (λ w line, print line w) w lines) = files w.
Proof. apply stdout_prints. Qed.

(** What the renderer reads. *)
Lemma foldl_same {A B} (R : B → B → Prop) (f : A → B → A) l l' :
  (∀ st m m', R m m' → f st m' = f st m) →
  Forall2 R l l' → ∀ st, foldl f st l' = foldl f st l.
Proof.
  intros Hf. induction 1 as [|m m' l l' Hm _ IH]; intros st; [done|].
  cbn [foldl]. by rewrite (Hf st m m' Hm), IH.
Qed.

Lemma toc_message_same st m m' :
  same_rendered_fields m m' → toc_message st m' = toc_message st m.
Proof. intros (Hrole & Htext & _). unfold toc_message. by rewrite Hrole, Htext. Qed.

Lemma toc_prefix pre messages n out :
  foldl toc_message (n, pre ++ out) messages
  = ((foldl toc_message (n, out) messages).1,
     pre ++ (foldl toc_message (n, out) messages).2).
Proof.
  revert n out. induction messages as [|m messages IH]; intros n out; [done|].
  cbn [foldl]. unfold toc_message at 2 4 6. destruct (turn_role m); cbn [fst snd].
  - rewrite <-app_assoc. apply IH.
  - apply IH.
  - apply IH.
Qed.

Section render_facts.
Context (home : string) (path_suffix : string → string).

Lemma body_message_same st m m' :
  same_rendered_fields m m' →
  body_message home path_suffix st m' = body_message home path_suffix st m.
Proof.
  intros (Hrole & Htext & Hann & Hqa & Hwc).
  unfold body_message, assistant_writes. by rewrite Hrole, Htext, Hann, Hqa, Hwc.
Qed.

Lemma body_message_prefix pre n out m :
  body_message home path_suffix (n, pre ++ out) m
  = ((body_message home path_suffix (n, out) m).1,
     pre ++ (body_message home path_suffix (n, out) m).2).
Proof.
  unfold body_message. destruct (turn_role m); cbn [fst snd]; by rewrite <-!app_assoc.
Qed.

Lemma body_prefix pre messages n out :
  foldl (body_message home path_suffix) (n, pre ++ out) messages
  = ((foldl (body_message home path_suffix) (n, out) messages).1,
     pre ++ (foldl (body_message home path_suffix) (n, out) messages).2).
Proof.
  revert n out. induction messages as [|m messages IH]; intros n out; [done|].
  cbn [foldl]. rewrite body_message_prefix.
  destruct (body_message home path_suffix (n, out) m) as [n' out']. apply IH.
Qed.

(** The writes are the header followed by writes that the turns alone
    determine. *)
Lemma render_header conv :
  ∃ rest,
    ∀ conv', messages conv' = messages conv →
             render home path_suffix conv'
             = ((render home path_suffix conv).1, header_writes conv' ++ rest).
Proof.
  eexists. intros conv' Hm. unfold render. rewrite Hm.
  rewrite <-(app_nil_r (header_writes conv')) at 1.
  rewrite <-(app_nil_r (header_writes conv)) at 1.
  rewrite !toc_prefix. cbn [fst snd]. rewrite <-!app_assoc, !body_prefix.
  cbn [fst snd]. reflexivity.
Qed.

Lemma render_same conv conv' :
  same_document_input conv conv' →
  render home path_suffix conv' = render home path_suffix conv.
Proof.
  intros (Hfm & Hts & Hproj & Hcount & Hmsgs). unfold render.
  assert (header_writes conv' = header_writes conv) as ->.
  { unfold header_writes. by rewrite Hfm, Hts, Hproj, Hcount. }
  rewrite (foldl_same _ toc_message _ _ toc_message_same Hmsgs).
  apply (foldl_same _ _ _ _ body_message_same Hmsgs).
Qed.

Lemma render_timestamp ts conv :
  render home path_suffix (set_last_timestamp ts conv)
  = ((render home path_suffix conv).1,
     <[1 := "**Date:** " +:+ default "None" ts +:+ nl]> (render home path_suffix conv).2).
Proof.
  destruct (render_header conv) as [rest Hrest].
  rewrite (Hrest (set_last_timestamp ts conv)) by done.
  rewrite (Hrest conv) by done. cbn [fst snd].
  rewrite insert_app_l by (unfold header_writes; cbn [length]; lia).
  reflexivity.
Qed.
End render_facts.

Section export_facts.
Context (home : string) (netloc_path : string → string).
Context (path_suffix : string → string) (iso_yyyymmdd : string → option string).
Context (writable : string → bool).

Local Abbreviation export :=
  (export_conversation home netloc_path path_suffix iso_yyyymmdd writable).
Local Abbreviation selected :=
  (export_selected home netloc_path path_suffix iso_yyyymmdd writable).

Lemma matching_spec session_id store f :
  f ∈ matching session_id store
  ↔ f ∈ store ∧ startswith (lf_stem f) "agent-" = false
    ∧ startswith (lf_stem f) session_id = true.
Proof.
  unfold matching. rewrite list_elem_of_filter. split.
  - intros [[Ha [He|Hp]] Hin]; split_and!; try done.
    rewrite He. apply startswith_refl.
  - intros (Hin & Ha & Hp). split_and!; auto.
Qed.

(** C8.  The logs an identifier selects are those of the store, agent
    logs apart, whose stem starts with it; a stem equal to the identifier
    is one of them.  With one match the export goes on with that log.
    With several, every candidate is printed, no file is touched and the
    export returns.  With none, that is printed and no file is touched. *)
Theorem export_target_selection fuel store session_id output_path w :
  (∀ f, f ∈ matching session_id store
        ↔ f ∈ store ∧ startswith (lf_stem f) "agent-" = false
          ∧ startswith (lf_stem f) session_id = true)
  ∧ (∀ f, f ∈ store → startswith (lf_stem f) "agent-" = false →
          lf_stem f = session_id → f ∈ matching session_id store)
  ∧ (∀ f, matching session_id store = [f] →
          export fuel store session_id output_path w
          = selected fuel f session_id output_path w)
  ∧ (1 < length (matching session_id store) →
     ∃ w', export fuel store session_id output_path w = Done (Returned w')
           ∧ stdout w'
             = stdout w ++ ambiguous_report session_id (matching session_id store)
           ∧ (∀ m, m ∈ matching session_id store → "  " +:+ lf_stem m ∈ stdout w')
           ∧ files w' = files w)
  ∧ (matching session_id store = [] →
     export fuel store session_id output_path w
     = Done (Returned {| stdout := stdout w
                           ++ ["Conversation " +:+ session_id +:+ " not found"];
                         files := files w |})).
Proof.
  split_and!.
  - apply matching_spec.
  - intros f Hin Ha He. apply matching_spec. split_and!; [done..|].
    rewrite He. apply startswith_refl.
  - intros f Hf. unfold export_conversation. by rewrite Hf.
  - intros Hlen. unfold export_conversation.
    destruct (matching session_id store) as [|m1 [|m2 ms]] eqn:E;
      [simpl in Hlen; lia..|].
    eexists. split; [done|].
    destruct (stdout_prints (ambiguous_report session_id (m1 :: m2 :: ms)) w)
      as [Hout Hfiles].
    split_and!; [done| |done].
    intros m Hm. rewrite Hout, elem_of_app. right.
    unfold ambiguous_report. rewrite elem_of_app, elem_of_app. right. left.
    apply list_elem_of_fmap. eauto.
  - intros Hnone. unfold export_conversation. by rewrite Hnone.
Qed.

(** An export that returns changes the files in a way that does not
    depend on the world: it leaves them, or it sets one path to one
    document; and it returns in every world. *)
Lemma export_files fuel store session_id output_path w w1 :
  export fuel store session_id output_path w = Done (Returned w1) →
  ∃ upd : gmap string string → gmap string string,
    (upd = id ∨ ∃ path doc, upd = insert path doc)
    ∧ ∀ w', ∃ w1', export fuel store session_id output_path w' = Done (Returned w1')
                   ∧ files w1' = upd (files w').
Proof.
  unfold export_conversation.
  destruct (matching session_id store) as [|f [|f2 fs]].
  - intros _. exists id. split; [by left|]. intros w'. by eexists.
  - unfold export_selected.
    destruct (parse_conversation _ _ _ _ _ _) as [|[conv|]]; [done| |].
    + destruct (match get_truthy output_path with
                | Some p => Some p
                | None => default_output_path iso_yyyymmdd conv
                end) as [path|]; [|done].
      destruct (render home path_suffix conv) as [user_count writes].
      unfold write_file. destruct (writable path); [|done].
      intros _. exists (insert path (foldl String.app "" writes)).
      split; [right; by eexists _, _|]. intros w'. by eexists.
    + intros _. exists id. split; [by left|]. intros w'. by eexists.
  - intros _. exists id. split; [by left|]. intros w'. eexists. split; [done|].
    apply files_prints.
Qed.

(** C9.  The writes of the renderer are determined by the header
    metadata (first message, last timestamp, project, message count) and
    by the role, text, annotations, Q&A blocks and snapshots of the turns:
    two conversations that agree on these are rendered alike, whatever
    their paths, session ids, counts of user turns and turn timestamps.
    The header timestamp reaches the document in the date line only, the
    second write.  And an export that returns in one world returns in
    every world and writes the same document there, so that repeating it
    leaves the files as they were after the first. *)
Theorem rendering_is_deterministic conv :
  (∀ conv', same_document_input conv conv' →
            render home path_suffix conv' = render home path_suffix conv)
  ∧ (∀ ts, render home path_suffix (set_last_timestamp ts conv)
           = ((render home path_suffix conv).1,
              <[1 := "**Date:** " +:+ default "None" ts +:+ nl]>
                (render home path_suffix conv).2))
  ∧ (∀ fuel store session_id output_path w w1,
       export fuel store session_id output_path w = Done (Returned w1) →
       (∀ w', ∃ w1',
          export fuel store session_id output_path w' = Done (Returned w1')
          ∧ ∀ p, files w1 !! p ≠ files w !! p → files w1' !! p = files w1 !! p)
       ∧ ∀ w2, export fuel store session_id output_path w1 = Done (Returned w2) →
               files w2 = files w1).
Proof.
  split_and!.
  - apply render_same.
  - intros ts. apply render_timestamp.
  - intros fuel store session_id output_path w w1 Hw.
    destruct (export_files _ _ _ _ _ _ Hw) as (upd & Hupd & Hany).
    destruct (Hany w) as (w1_ & Hw_ & Hf1). rewrite Hw in Hw_. injection Hw_ as <-.
    split.
    + intros w'. destruct (Hany w') as (w1' & Hw' & Hf1'). exists w1'. split; [done|].
      intros p Hp. rewrite Hf1, Hf1'. rewrite Hf1 in Hp.
      destruct Hupd as [->|(path & doc & ->)]; [done|].
      destruct (decide (p = path)) as [->|Hne].
      * by rewrite !lookup_insert_eq.
      * by rewrite lookup_insert_ne in Hp.
    + intros w2 Hw2. destruct (Hany w1) as (w2_ & Hw2_ & Hf2). rewrite Hw2 in Hw2_.
      injection Hw2_ as <-. rewrite Hf2, Hf1.
      destruct Hupd as [->|(path & doc & ->)]; [done|]. by rewrite insert_insert_eq.
Qed.
End export_facts.

Lemma export_target_selection_witness :
  ∃ w', export_conversation "/home/u" (λ u, u) (λ p, "") (λ t, Some "20240301")
          (λ p, true) 3 sample_store "abc" None empty_world = Done (Returned w')
        ∧ stdout w'
          = stdout empty_world ++ ambiguous_report "abc" (matching "abc" sample_store)
        ∧ (∀ m, m ∈ matching "abc" sample_store → "  " +:+ lf_stem m ∈ stdout w')
        ∧ files w' = files empty_world.
Proof.
  destruct (export_target_selection "/home/u" (λ u, u) (λ p, "") (λ t, Some "20240301")
              (λ p, true) 3 sample_store "abc" None empty_world) as (_ & _ & _ & Hambiguous & _).
  apply Hambiguous. vm_compute. lia.
Defined.

Lemma rendering_is_deterministic_witness :
  render "/home/u" (λ p, "") greeting_copy = render "/home/u" (λ p, "") greeting.
Proof.
  destruct (rendering_is_deterministic "/home/u" (λ u, u) (λ p, "")
              (λ t, Some "20240301") (λ p, true) greeting) as (Hsame & _).
  apply Hsame. unfold same_document_input. split_and!; try reflexivity.
  repeat constructor.
Defined.

(** * Further properties *)

(** ** The resolver: cycles and empty results *)

Section cycle_facts.
Context (by_uuid : gmap string RawRecord).
Local Abbreviation link := (parent_link by_uuid).

Lemma tc_link_first d e : tc link d e → ∃ d1, link d d1 ∧ rtc link d1 e.
Proof.
  intros H. destruct H as [d e H|d d1 e H1 H2].
  - by exists e.
  - exists d1. split; [done|]. by apply tc_rtc.
Qed.

Lemma rtc_link_back d x : tc link d d → rtc link d x → rtc link x d.
Proof.
  intros Hd. revert x. apply (rtc_ind_r (λ x, rtc link x d)); [done|].
  intros y x Hdy Hyx IH.
  destruct IH as [|y y1 d Hy1 Hrest].
  - destruct (tc_link_first _ _ Hd) as (d1 & Hd1 & Hback).
    by rewrite (parent_link_fun _ _ _ _ Hyx Hd1).
  - by rewrite (parent_link_fun _ _ _ _ Hyx Hy1).
Qed.

Lemma rtc_link_linear u x d : rtc link u x → rtc link u d → rtc link x d ∨ rtc link d x.
Proof.
  intros Hx Hd. revert x Hx.
  apply (rtc_ind_r (λ x, rtc link x d ∨ rtc link d x)); [by left|].
  intros y x Huy Hyx IH.
  destruct IH as [IH|IH].
  - destruct IH as [|y y1 d Hy1 Hrest].
    + right. by apply rtc_once.
    + left. by rewrite (parent_link_fun _ _ _ _ Hyx Hy1).
  - right. by eapply rtc_r.
Qed.

Lemma cycle_has_no_end u x :
  leads_into_cycle by_uuid u → rtc link u x → ∃ p, link x p.
Proof.
  intros (d & Hud & Hd) Hx.
  assert (rtc link x d) as Hxd.
  { destruct (rtc_link_linear u x d Hx Hud); [done|]. by apply rtc_link_back. }
  destruct Hxd as [|x x1 d Hx1 _]; [|by exists x1].
  destruct (tc_link_first _ _ Hd) as (d1 & Hd1 & _). by exists d1.
Qed.

(** The loop never ends on a chain in which every record names a parent
    that the index holds. *)
Lemma walk_endless fuel current c winning :
  get_truthy current = Some c →
  (∀ x, rtc link c x → ∃ p, link x p) →
  walk fuel by_uuid current winning = OutOfFuel.
Proof.
  revert current c winning.
  induction fuel as [|fuel IH]; intros current c winning Hc Hnext; simpl; [done|].
  rewrite Hc. destruct (Hnext c) as (p & rec & Hrec & Hp); [done|].
  rewrite Hrec. apply (IH _ p); [done|].
  intros x Hx. apply Hnext. eapply rtc_l; [|done]. by exists rec.
Qed.
End cycle_facts.

(** X1.  The walk has no guard against cycles: when the terminal the
    resolver starts from leads, along parent links, to an id that is its
    own ancestor, [find_winning_path] does not return, whatever the fuel. *)
Theorem find_winning_path_diverges_on_cycle recs t u :
  latest_terminal_of recs = Some t →
  get_truthy (uuid t) = Some u →
  leads_into_cycle (by_uuid_of recs) u →
  ∀ fuel, find_winning_path fuel recs = OutOfFuel.
Proof.
  intros Ht Hu Hcycle fuel. unfold find_winning_path.
  destruct (cycle_has_no_end _ u u Hcycle) as (p & rec & Hrec & _); [done|].
  case_decide as He; [by rewrite He, lookup_empty in Hrec|].
  rewrite Ht, (walk_endless _ fuel (uuid t) u); [done|done|].
  intros x. by apply cycle_has_no_end.
Qed.

Lemma find_winning_path_diverges_on_cycle_witness :
  find_winning_path 1000 cyclic_log = OutOfFuel.
Proof.
  apply (find_winning_path_diverges_on_cycle cyclic_log
           (node (Some "t") (Some "a") (Some "2024-01-01T10:02:00Z")) "t").
  - vm_compute. reflexivity.
  - reflexivity.
  - exists "a". split.
    + apply rtc_once. eexists. split; [vm_compute; reflexivity|reflexivity].
    + eapply tc_l; [|apply tc_once].
      * eexists. split; [vm_compute; reflexivity|reflexivity].
      * eexists. split; [vm_compute; reflexivity|reflexivity].
Defined.


(** ** The grouping loop *)

(** X4.  Grouping loses, repeats and reorders nothing: the records of the
    turns, read in turn order, are the records with a user or assistant
    message of non-empty content, in log order. *)
Theorem group_turns_keeps_records_in_order raw :
  concat (map snd (group_turns raw)) = filter (λ r, grouped r = true) raw.
Proof. unfold group_turns. apply group_inv_flush, group_inv_foldl. Qed.

(** X5.  Every turn of the grouping is a user turn of exactly one user
    record, or an assistant turn of one or more assistant records that all
    read the same request id; a turn of several records has a non-empty
    request id. *)
Theorem group_turns_well_formed raw :
  Forall well_formed_turn (group_turns raw).
Proof. unfold group_turns. apply (group_inv_flush _ raw), group_inv_foldl. Qed.

(** ** The turns and the summary *)

Lemma length_take_str n s : String.length (take_str n s) ≤ n.
Proof.
  revert s. induction n as [|n IH]; intros [|c s]; simpl; try lia.
  specialize (IH s). lia.
Qed.

Lemma title_of_Some m t :
  title_of m = Some t → t ≠ "" ∧ String.length t ≤ 100.
Proof.
  unfold title_of. destruct (turn_role m); [|done..].
  remember (take_str 100 (default "" (head (split_char newline (text m))))) as tt.
  intros [Ht Hne]%get_truthy_Some. split; [done|].
  assert (t = tt) as -> by congruence. subst tt. apply length_take_str.
Qed.

Section message_facts.
Context (home : string) (netloc_path : string → string) (asks : AskState).

Lemma assistant_turn_significant records m :
  assistant_turn home netloc_path asks records = Some m →
  turn_role m = RoleAssistant ∧ significant m.
Proof.
  unfold assistant_turn. destruct (_ || _ || _) eqn:E; [|done].
  intros [= <-]. split; [done|]. unfold significant. simpl.
  apply orb_true_iff in E as [E|E%bool_decide_eq_true]; [|by right; right].
  apply orb_true_iff in E as [E|E%bool_decide_eq_true]; [by left|by right; left].
Qed.

Lemma user_turn_significant record m :
  user_turn asks record = Some m → turn_role m = RoleUser ∧ significant m.
Proof.
  unfold user_turn. intros H.
  repeat case_match; simplify_eq; split; try done; unfold significant; simpl; done.
Qed.

(** The invariant of the loop that builds the messages. *)
Lemma build_turn_inv st turn :
  Forall significant st.1 ∧ get_truthy st.2 = head (omap title_of st.1) →
  Forall significant (build_turn home netloc_path asks st turn).1
  ∧ get_truthy (build_turn home netloc_path asks st turn).2
    = head (omap title_of (build_turn home netloc_path asks st turn).1).
Proof.
  intros [Hsig Htitle]. destruct turn as [r records]. unfold build_turn.
  assert (∀ m, assistant_turn home netloc_path asks records = Some m →
               Forall significant (st.1 ++ [m])
               ∧ get_truthy st.2 = head (omap title_of (st.1 ++ [m]))) as Hassistant.
  { intros m Hm. apply assistant_turn_significant in Hm as [Hrole Hm].
    split; [apply Forall_app; split; [done|by apply Forall_singleton]|].
    rewrite omap_app. simpl. unfold title_of at 2. rewrite Hrole. simpl.
    by rewrite app_nil_r. }
  assert (match head records ≫= user_turn asks with
          | Some m =>
              Forall significant (st.1 ++ [m])
              ∧ get_truthy match get_truthy st.2 with
                           | Some _ => st.2
                           | None => Some (take_str 100
                                             (default "" (head (split_char newline (text m)))))
                           end
                = head (omap title_of (st.1 ++ [m]))
          | None => True
          end) as Huser.
  { destruct (head records ≫= user_turn asks) as [m|] eqn:Hm; [|done].
    destruct (head records) as [record|]; [|done]. simpl in Hm.
    apply user_turn_significant in Hm as [Hrole Hm].
    split; [apply Forall_app; split; [done|by apply Forall_singleton]|].
    rewrite omap_app. destruct (get_truthy st.2) as [t|] eqn:Ht.
    - rewrite Ht. rewrite Htitle in Ht.
      destruct (omap title_of st.1); simpl in *; congruence.
    - rewrite Htitle in Ht. destruct (omap title_of st.1) as [|? ?]; [|done].
      assert (get_truthy (Some (take_str 100
                                  (default "" (head (split_char newline (text m))))))
              = title_of m) as -> by (unfold title_of; by rewrite Hrole).
      rewrite app_nil_l. change (omap title_of [m]) with
        (match title_of m with Some y => [y] | None => [] end).
      by destruct (title_of m). }
  destruct r.
  - destruct (head records ≫= user_turn asks); [done|]. done.
  - destruct (assistant_turn home netloc_path asks records) as [m|] eqn:Hm; simpl.
    + by apply Hassistant.
    + by rewrite app_nil_r.
  - destruct (head records ≫= user_turn asks); [done|]. done.
Qed.

Lemma build_messages_inv turns :
  Forall significant (build_messages home netloc_path asks turns).1
  ∧ get_truthy (build_messages home netloc_path asks turns).2
    = head (omap title_of (build_messages home netloc_path asks turns).1).
Proof.
  unfold build_messages.
  induction turns as [|t turns IH] using rev_ind; [by split|].
  rewrite foldl_app. simpl. by apply build_turn_inv.
Qed.
End message_facts.

(** X6.  Every turn built from the records is worth showing: a user turn
    has meaningful text (and no enrichment), an assistant turn has
    meaningful text, a tool annotation or a Q&A block. *)
Theorem messages_are_significant home netloc_path raw :
  Forall significant (messages_of home netloc_path raw).1.
Proof. apply build_messages_inv. Qed.

(** X7.  A summary that is returned has at least one turn; its counts are
    the number of turns and of user turns; and its title is the first
    non-empty first line of a user turn, cut at 100 characters, or
    "Unknown" when no user turn has one, so it is never empty and never
    longer than 100 characters. *)
Theorem parse_conversation_summary home netloc_path fuel path stem lines conv :
  parse_conversation home netloc_path fuel path stem lines = Done (Some conv) →
  messages conv ≠ []
  ∧ message_count conv = length (messages conv)
  ∧ user_messages conv = length (filter (λ m, turn_role m = RoleUser) (messages conv))
  ∧ user_messages conv ≤ message_count conv
  ∧ first_message conv = default "Unknown" (head (omap title_of (messages conv)))
  ∧ first_message conv ≠ ""
  ∧ String.length (first_message conv) ≤ 100.
Proof.
  unfold parse_conversation. destruct (load lines) as [scalars all_records].
  destruct all_records as [|r0 all_records]; [done|].
  destruct (find_winning_path _ _) as [|winning]; [done|].
  unfold assemble. destruct (raw_records_of _ _) as [|r raw]; [done|].
  unfold messages_of.
  pose proof (build_messages_inv home netloc_path (collect_asks (r :: raw))
                (group_turns (r :: raw))) as [Hsig Htitle].
  destruct (build_messages _ _ _ _) as [[|m ms] first]; [done|].
  intros [= <-]. cbn [messages message_count user_messages first_message fst snd] in *.
  rewrite Htitle.
  split_and!; [done..| | | |].
  - apply (length_filter _ (m :: ms)).
  - done.
  - destruct (omap title_of (m :: ms)) as [|t ts] eqn:E; [done|].
    assert (t ∈ omap title_of (m :: ms)) as Hin by (rewrite E; set_solver).
    apply list_elem_of_omap in Hin as (x & _ & Hx).
    by apply title_of_Some in Hx as [? _].
  - destruct (omap title_of (m :: ms)) as [|t ts] eqn:E; [cbn; lia|].
    assert (t ∈ omap title_of (m :: ms)) as Hin by (rewrite E; set_solver).
    apply list_elem_of_omap in Hin as (x & _ & Hx).
    by apply title_of_Some in Hx as [_ ?].
Qed.

(** ** Annotations and paths *)

Lemma app_String c s t : String c s +:+ t = String c (s +:+ t).
Proof. done. Qed.

Lemma app_empty_l t : "" +:+ t = t.
Proof. done. Qed.

Lemma startswith_app p s : startswith (p +:+ s) p = true.
Proof.
  unfold startswith. induction p as [|c p IH].
  - rewrite app_empty_l. by destruct s.
  - rewrite app_String. simpl. by destruct (ascii_dec c c).
Qed.

Lemma generate_tool_annotation_spec home netloc_path name inp :
  (generate_tool_annotation home netloc_path name inp = None ↔ name = "AskUserQuestion")
  ∧ (∀ ann, generate_tool_annotation home netloc_path name inp = Some ann →
            ann ≠ ""
            ∧ (startswith ann "Wrote: " = true ↔ name = "Write")).
Proof.
  unfold generate_tool_annotation.
  repeat case_decide; subst;
    (split; [split; [try done; intros ->; done|try done; intros ->; done]|]);
    intros ann [= <-]; (split; [done|]); split; try done; try (intros ->; done).
  intros _. apply startswith_app.
Qed.

(** X10.  [generate_tool_annotation] gives no annotation exactly for
    [AskUserQuestion]; an annotation is never the empty string (so the
    test [if ann:] drops none); and an annotation starts with "Wrote: "
    exactly when the tool is [Write]. *)
Theorem generate_tool_annotation_facts home netloc_path name inp :
  (generate_tool_annotation home netloc_path name inp = None ↔ name = "AskUserQuestion")
  ∧ (∀ ann, generate_tool_annotation home netloc_path name inp = Some ann →
            ann ≠ ""
            ∧ (startswith ann "Wrote: " = true ↔ name = "Write")).
Proof. apply generate_tool_annotation_spec. Qed.

Lemma drop_str_app p s : drop_str (String.length p) (p +:+ s) = s.
Proof.
  induction p as [|c p IH]; [by rewrite app_empty_l|].
  by rewrite app_String.
Qed.

Lemma startswith_split s p :
  startswith s p = true → s = p +:+ drop_str (String.length p) s.
Proof.
  unfold startswith. revert s. induction p as [|c p IH]; intros s; simpl.
  - intros _. by destruct s.
  - destruct s as [|d s]; [done|]. simpl.
    destruct (ascii_dec c d) as [->|]; [|done].
    intros H. rewrite app_String. f_equal. by apply IH.
Qed.

(** X11.  A non-empty path that starts with the home directory is
    shortened to "~" followed by the rest, and the home directory followed
    by that rest is the path again; a path that does not start with the
    home directory is left as it is. *)
Theorem shorten_path_cases home file_path :
  (startswith file_path home = true → file_path ≠ "" →
   ∃ rest, file_path = home +:+ rest ∧ shorten_path home file_path = "~" +:+ rest)
  ∧ (startswith file_path home = false → shorten_path home file_path = file_path)
  ∧ (∀ rest, rest ≠ "" ∨ home ≠ "" →
             shorten_path home (home +:+ rest) = "~" +:+ rest).
Proof.
  unfold shorten_path. split_and!.
  - intros Hp Hne. exists (drop_str (String.length home) file_path).
    rewrite decide_False, Hp by done. split; [by apply startswith_split|done].
  - intros Hp. rewrite Hp. by case_decide.
  - intros rest Hne. rewrite startswith_app, drop_str_app.
    rewrite decide_False; [done|].
    destruct home; [|done]. destruct rest; naive_solver.
Qed.

(** ** File blocks and Q&A blocks *)

Section write_map_facts.
Context (home : string) (path_suffix : string → string).

Lemma write_map_of_snoc wcs wc :
  write_map_of home (wcs ++ [wc])
  = <[shorten_path home (wc_file_path wc) := wc]> (write_map_of home wcs).
Proof. unfold write_map_of. by rewrite foldl_app. Qed.

Lemma write_map_of_lookup wcs key :
  write_map_of home wcs !! key
  = last (filter (λ wc, shorten_path home (wc_file_path wc) = key) wcs).
Proof.
  induction wcs as [|wc wcs IH] using rev_ind; [done|].
  rewrite write_map_of_snoc, filter_app, filter_cons, filter_nil.
  case_decide as Hk.
  - by rewrite Hk, lookup_insert_eq, last_snoc.
  - by rewrite lookup_insert_ne, app_nil_r.
Qed.

(** X12.  Under the annotation of a file-write the renderer puts the
    file block of the last snapshot of the turn whose shortened path is
    the one of the annotation, and nothing when there is none: two writes
    of one file in one turn both show the content written last. *)
Theorem write_annotation_shows_last_snapshot wcs file_path :
  annotation_writes path_suffix (write_map_of home wcs)
    ("Wrote: " +:+ shorten_path home file_path)
  = ("> _" +:+ "Wrote: " +:+ shorten_path home file_path +:+ "_" +:+ nl)
    :: match last (filter (λ wc, shorten_path home (wc_file_path wc)
                                 = shorten_path home file_path) wcs) with
       | Some wc => file_block_writes path_suffix wc
       | None => []
       end.
Proof.
  unfold annotation_writes.
  rewrite (startswith_app "Wrote: "), (drop_str_app "Wrote: ").
  by rewrite write_map_of_lookup.
Qed.
End write_map_facts.

(** Every line of the block is a line of a markdown quotation. *)
Lemma question_lines_quoted q : Forall (λ l, startswith l ">" = true) (question_lines q).
Proof.
  unfold question_lines. constructor; [done|].
  apply Forall_fmap, Forall_true. done.
Qed.

(** X13.  A Q&A block is its lines joined by newlines; every line starts
    with the quotation mark ">"; there is one line per question, one per
    option and two more; the last is the answer line, which shows the
    answer when there is a non-empty one and the no-answer marker
    otherwise. *)
Theorem format_question_answer_lines qa :
  format_question_answer qa = join nl (block_lines qa)
  ∧ Forall (λ l, startswith l ">" = true) (block_lines qa)
  ∧ length (block_lines qa)
    = sum_list (map (λ q, 1 + length (options q)) (qa_questions qa)) + 2
  ∧ last (block_lines qa) = Some (answer_line qa)
  ∧ (∀ a, answer qa = Some a → a ≠ "" → answer_line qa = "> **Answer:** " +:+ a)
  ∧ (answer qa = None ∨ answer qa = Some "" →
     answer_line qa = "> **Answer:** [No answer recorded]").
Proof.
  unfold block_lines. split_and!.
  - done.
  - apply Forall_app. split.
    + apply Forall_concat, Forall_fmap, Forall_true. intros q. apply question_lines_quoted.
    + repeat constructor. unfold answer_line. by destruct (get_truthy (answer qa)).
  - rewrite length_app. simpl. f_equal.
    induction (qa_questions qa) as [|q qs IH]; [done|].
    simpl. rewrite length_app, IH, length_fmap. done.
  - by rewrite last_app.
  - intros a Ha Hne. unfold answer_line. rewrite Ha. simpl. by rewrite decide_False.
  - intros [Ha|Ha]; unfold answer_line; by rewrite Ha.
Qed.

(** ** Numbering of the user turns *)

Lemma user_turns_cons m messages :
  user_turns (m :: messages)
  = if decide (turn_role m = RoleUser) then m :: user_turns messages
    else user_turns messages.
Proof. unfold user_turns. by rewrite filter_cons. Qed.

Lemma toc_message_user st m :
  turn_role m = RoleUser →
  toc_message st m = (st.1 + 1, st.2 ++ [toc_entry (st.1 + 1) m]).
Proof. intros Hrole. unfold toc_message, toc_entry. rewrite Hrole. reflexivity. Qed.

Lemma toc_message_other st m : turn_role m ≠ RoleUser → toc_message st m = st.
Proof. intros Hrole. unfold toc_message. by destruct (turn_role m). Qed.

Lemma toc_fold messages n out :
  foldl toc_message (n, out) messages
  = (n + length (user_turns messages),
     out ++ imap (λ k m, toc_entry (n + S k) m) (user_turns messages)).
Proof.
  revert n out. induction messages as [|m messages IH]; intros n out.
  - cbn. by rewrite Nat.add_0_r, app_nil_r.
  - rewrite user_turns_cons. cbn [foldl]. case_decide as Hrole.
    + rewrite (toc_message_user _ _ Hrole). cbn [fst snd]. rewrite IH.
      cbn [length imap]. f_equal; [lia|].
      rewrite <-app_assoc. cbn [app]. f_equal. f_equal.
      apply imap_ext. intros k x _. cbn. f_equal. lia.
    + by rewrite (toc_message_other _ _ Hrole), IH.
Qed.

Lemma toc_fold_from_0 messages out :
  foldl toc_message (0, out) messages
  = (length (user_turns messages),
     out ++ imap (λ k m, toc_entry (S k) m) (user_turns messages)).
Proof. apply (toc_fold messages 0 out). Qed.

Section body_facts.
Context (home : string) (path_suffix : string → string).

Lemma body_message_spec st msg :
  ∃ added,
    body_message home path_suffix st msg
    = (st.1 + (if decide (turn_role msg = RoleUser) then 1 else 0), st.2 ++ added)
    ∧ (turn_role msg = RoleUser → user_heading (st.1 + 1) ∈ added).
Proof.
  unfold body_message. destruct st as [n out]. destruct (turn_role msg); cbn [fst snd].
  - eexists. rewrite <-app_assoc, decide_True by done. split; [done|].
    intros _. apply elem_of_app. left. apply list_elem_of_here.
  - eexists. rewrite <-app_assoc, decide_False, Nat.add_0_r by done. split; [done|]. done.
  - eexists. rewrite decide_False, Nat.add_0_r by done. split; [done|]. done.
Qed.

Lemma body_fold messages n out :
  ∃ added,
    foldl (body_message home path_suffix) (n, out) messages
    = (n + length (user_turns messages), out ++ added)
    ∧ ∀ k m, user_turns messages !! k = Some m → user_heading (n + S k) ∈ added.
Proof.
  revert n out. induction messages as [|m messages IH]; intros n out.
  - exists []. simpl. rewrite Nat.add_0_r, app_nil_r. split; [done|].
    intros k m. unfold user_turns. rewrite filter_nil. by rewrite lookup_nil.
  - destruct (body_message_spec (n, out) m) as (a1 & E1 & H1). simpl in E1, H1.
    simpl. rewrite E1.
    destruct (IH (n + (if decide (turn_role m = RoleUser) then 1 else 0)) (out ++ a1))
      as (a2 & E2 & H2).
    exists (a1 ++ a2). rewrite E2, user_turns_cons, <-app_assoc.
    case_decide as Hrole; simpl.
    + split; [f_equal; lia|]. intros [|k] x Hx; simpl in Hx.
      * apply elem_of_app. left. rewrite Nat.add_1_r in H1. rewrite Nat.add_1_r. by apply H1.
      * apply elem_of_app. right.
        replace (n + S (S k)) with (n + 1 + S k) by lia. by apply (H2 k x).
    + split; [f_equal; lia|]. intros k x Hx.
      apply elem_of_app. right. rewrite Nat.add_0_r in H2. by apply (H2 k x).
Qed.


(** X16.  The table of contents and the body number the user turns
    alike: the count the export reports is the number of user turns, the
    table of contents is one entry per user turn, numbered from 1 in
    order, and for each of them the document holds the heading with the
    anchor of the same number. *)
Theorem render_numbers_user_turns conv :
  (render home path_suffix conv).1 = length (user_turns (messages conv))
  ∧ foldl toc_message (0, header_writes conv) (messages conv)
    = (length (user_turns (messages conv)),
       header_writes conv
       ++ imap (λ k m, toc_entry (S k) m) (user_turns (messages conv)))
  ∧ ∀ k m, user_turns (messages conv) !! k = Some m →
           toc_entry (S k) m ∈ (render home path_suffix conv).2
           ∧ user_heading (S k) ∈ (render home path_suffix conv).2.
Proof.
  unfold render. rewrite toc_fold_from_0. cbn [fst snd].
  destruct (body_fold (messages conv) 0
              ((header_writes conv
                ++ imap (λ k m, toc_entry (S k) m) (user_turns (messages conv)))
               ++ [nl +:+ "---" +:+ nl +:+ nl])) as (added & E & Hheads).
  rewrite E. cbn [fst snd]. split_and!; [done..|].
  intros k m Hk. split.
  - apply elem_of_app. left. apply elem_of_app. left. apply elem_of_app. right.
    apply list_elem_of_lookup. exists k. by rewrite list_lookup_imap, Hk.
  - apply elem_of_app. right. by apply (Hheads k m).
Qed.
End body_facts.

(** ** Reading answers back *)

Lemma app_str_assoc a b c : (a +:+ b) +:+ c = a +:+ (b +:+ c).
Proof. induction a as [|x a IH]; [done|]. by rewrite !app_String, IH. Qed.

Lemma length_app_str a b : String.length (a +:+ b) = String.length a + String.length b.
Proof. induction a as [|x a IH]; [done|]. rewrite app_String. simpl. by rewrite IH. Qed.

Lemma no_quote_String c s : no_quote (String c s) ↔ c ≠ quote ∧ no_quote s.
Proof.
  unfold no_quote. simpl. case_decide; split; try lia; naive_solver.
Qed.

Lemma until_quote_app g rest :
  no_quote g → until_quote (g +:+ String quote rest) = Some (g, rest).
Proof.
  induction g as [|c g IH]; intros Hg.
  - rewrite app_empty_l. simpl. by rewrite ?decide_True.
  - apply no_quote_String in Hg as [Hc Hg]. rewrite app_String. simpl.
    by rewrite decide_False, IH.
Qed.

Lemma match_pair_answered q a rest :
  no_quote q → no_quote a →
  match_pair (q +:+ String quote (String "="%char (String quote (a +:+ String quote rest))))
  = Some (q, a, rest).
Proof.
  intros Hq Ha. unfold match_pair. rewrite until_quote_app by done.
  rewrite ?decide_True by done. by rewrite until_quote_app.
Qed.

Lemma findall_go_skip pre s steps :
  no_quote pre →
  findall_go steps (pre +:+ s) = findall_go (steps - String.length pre) s.
Proof.
  revert steps. induction pre as [|c pre IH]; intros steps Hpre.
  - rewrite app_empty_l. simpl. by rewrite Nat.sub_0_r.
  - apply no_quote_String in Hpre as [Hc Hpre]. rewrite app_String.
    destruct steps as [|steps]; simpl; [by destruct s|].
    by rewrite decide_False, IH.
Qed.

Lemma findall_go_no_quote s steps : no_quote s → findall_go steps s = [].
Proof.
  revert steps. induction s as [|c s IH]; intros [|steps] Hs; simpl; try done.
  apply no_quote_String in Hs as [Hc Hs]. by rewrite decide_False, IH.
Qed.

Lemma answered_pair_app p rest :
  answered_pair p +:+ rest
  = String quote (p.1 +:+ String quote (String "="%char
                            (String quote (p.2 +:+ String quote rest)))).
Proof.
  unfold answered_pair. rewrite app_String, app_str_assoc. rewrite !app_String.
  by rewrite app_str_assoc, app_String, app_empty_l.
Qed.

Lemma findall_go_pair p rest steps :
  no_quote p.1 → no_quote p.2 →
  findall_go (S steps) (answered_pair p +:+ rest) = p :: findall_go steps rest.
Proof.
  intros H1 H2. rewrite answered_pair_app. simpl.
  rewrite ?decide_True by done. rewrite match_pair_answered by done. by destruct p.
Qed.

Lemma length_answered_pair p : 5 ≤ String.length (answered_pair p).
Proof.
  unfold answered_pair. simpl. rewrite length_app_str. simpl.
  rewrite length_app_str. simpl. lia.
Qed.

Lemma findall_go_answered pairs ending steps :
  Forall (λ p, no_quote p.1 ∧ no_quote p.2) pairs → no_quote ending →
  String.length (join ", " (map answered_pair pairs) +:+ ending) ≤ steps →
  findall_go steps (join ", " (map answered_pair pairs) +:+ ending) = pairs.
Proof.
  intros Hpairs Hend. revert steps.
  induction Hpairs as [|p pairs [Hq Ha] Hpairs IH]; intros steps Hsteps.
  - simpl. by apply findall_go_no_quote.
  - destruct pairs as [|p' pairs].
    + simpl in *. pose proof (length_answered_pair p).
      rewrite length_app_str in Hsteps.
      destruct steps as [|steps]; [lia|].
      rewrite findall_go_pair by done. by rewrite findall_go_no_quote.
    + change (join ", " (map answered_pair (p :: p' :: pairs)))
        with (answered_pair p +:+ ", " +:+ join ", " (map answered_pair (p' :: pairs))) in *.
      rewrite !app_str_assoc in *. pose proof (length_answered_pair p).
      rewrite !length_app_str in Hsteps.
      destruct steps as [|steps]; [lia|].
      rewrite findall_go_pair by done. f_equal.
      rewrite findall_go_skip by done. apply IH.
      rewrite length_app_str. simpl in *. lia.
Qed.

Lemma find_from_prefix needle s i :
  String.prefix needle s = true → find_from needle s i = Some i.
Proof. intros H. destruct s; cbn [find_from]; by rewrite H. Qed.

Lemma contains_prefix p s : contains (p +:+ s) p = true.
Proof.
  unfold contains, find. apply bool_decide_eq_true.
  rewrite find_from_prefix; [by eexists|]. apply startswith_app.
Qed.

(** X14.  A result text in the answered form, made of the marker, the
    pairs (question and answer between double quotes, joined by an equals
    sign) separated by commas, and an ending, is read back: the answer is
    the answers of the pairs, stripped and joined by "; ", provided that
    neither the questions, the answers nor the ending hold a double
    quote. *)
Theorem parse_ask_answer_reads_answers pairs ending :
  pairs ≠ [] →
  Forall (λ p, no_quote p.1 ∧ no_quote p.2) pairs →
  no_quote ending →
  parse_ask_answer (RStr (answered_text pairs ending))
  = Some (join "; " (map (λ p, strip p.2) pairs)).
Proof.
  intros Hne Hpairs Hend. unfold parse_ask_answer, answered_text. cbn [result_text].
  assert (contains ("User has answered your questions: "
                    +:+ join ", " (map answered_pair pairs) +:+ ending)
            "User has answered your questions:" = true) as ->.
  { apply (contains_prefix "User has answered your questions:"
             (" " +:+ join ", " (map answered_pair pairs) +:+ ending)). }
  assert (findall_pairs ("User has answered your questions: "
                         +:+ join ", " (map answered_pair pairs) +:+ ending) = pairs) as ->.
  { unfold findall_pairs. rewrite findall_go_skip by done.
    apply findall_go_answered; [done..|].
    rewrite (length_app_str "User has answered your questions: "). simpl. lia. }
  by destruct pairs.
Qed.

Lemma strip_nonempty_or s : strip s = "" ∨ strip s ≠ "".
Proof. destruct (decide (strip s = "")); auto. Qed.

(** X15.  When the result text has no answered pair and has the declined
    or the clarify form, the answer is a non-empty text (so the block
    never shows the no-answer marker for it), and it is the fixed
    placeholder when the text does not quote what the user said. *)
Theorem parse_ask_answer_declined res c :
  result_text res = Some c →
  contains c "User has answered your questions:" = false ∨ findall_pairs c = [] →
  contains c "doesn't want to proceed" = true
  ∨ contains (lower c) "user wants to clarify" = true →
  ∃ a, parse_ask_answer res = Some a
       ∧ a ≠ ""
       ∧ (find (lower c) "the user said:" = None → a = "[User requested clarification]").
Proof.
  intros Hc Hpairs Hdeclined. unfold parse_ask_answer. rewrite Hc.
  assert ((if contains c "User has answered your questions:"
           then findall_pairs c else []) = []) as ->.
  { destruct Hpairs as [-> | ->]; [done|].
    by destruct (contains c "User has answered your questions:"). }
  assert (contains c "doesn't want to proceed"
          || contains (lower c) "user wants to clarify" = true) as ->.
  { destruct Hdeclined as [-> | ->]; [done|by rewrite orb_true_r]. }
  cbv zeta. destruct (find (lower c) "the user said:") as [idx|].
  - repeat case_match; eexists; split_and!; try done.
  - eexists. split_and!; done.
Qed.

(** ** Listing *)







(** The resolver on a log that leads into a cycle. *)
Lemma find_winning_path_cycle recs t u fuel :
  latest_terminal_of recs = Some t →
  get_truthy (uuid t) = Some u →
  leads_into_cycle (by_uuid_of recs) u →
  find_winning_path fuel recs = OutOfFuel.
Proof.
  intros Ht Hu Hcycle. unfold find_winning_path.
  destruct (cycle_has_no_end _ u u Hcycle) as (p & rec & Hrec & _); [done|].
  case_decide as He; [by rewrite He, lookup_empty in Hrec|].
  rewrite Ht, (walk_endless _ fuel (uuid t) u); [done|done|].
  intros x. by apply cycle_has_no_end.
Qed.

Lemma parse_conversation_cycle home netloc_path fuel path stem lines t u :
  latest_terminal_of (omap id lines) = Some t →
  get_truthy (uuid t) = Some u →
  leads_into_cycle (by_uuid_of (omap id lines)) u →
  parse_conversation home netloc_path fuel path stem lines = OutOfFuel.
Proof.
  intros Ht Hu Hcycle. unfold parse_conversation.
  destruct (load_spec lines) as (Hrecs & _).
  destruct (load lines) as [scalars all_records]. simpl in Hrecs. subst all_records.
  rewrite (find_winning_path_cycle _ t u fuel Ht Hu Hcycle).
  destruct (omap id lines) eqn:E; [|done]. done.
Qed.

Section listing_facts.
Context (home : string) (netloc_path : string → string).
Context (normalize_path : string → string).

Local Abbreviation scan_ := (scan home netloc_path normalize_path).
Local Abbreviation parse_ := (parse_conversation home netloc_path).



Lemma scan_cycle fuel store project_path f :
  f ∈ store → startswith (lf_stem f) "agent-" = false →
  parse_ fuel (lf_path f) (lf_stem f) (lf_lines f) = OutOfFuel →
  scan_ fuel store project_path = OutOfFuel.
Proof.
  intros Hf Hagent Hparse. induction store as [|g store IH]; simpl.
  - by apply elem_of_nil in Hf.
  - apply elem_of_cons in Hf as [<-|Hf].
    + by rewrite Hagent, Hparse.
    + destruct (startswith (lf_stem g) "agent-"); [by apply IH|].
      destruct (parse_ fuel (lf_path g) (lf_stem g) (lf_lines g)) as [|[c|]];
        [done| |by apply IH].
      destruct (project_matches _ _ _); [|by apply IH]. by rewrite IH.
Qed.



(** X24.  One log of the store whose resolver walk leads into a cycle is
    enough for the listing not to return, whatever the fuel, and with it
    the recent listing, copy-last and the search: no other log of the
    store is shown. *)
Theorem listing_hangs_on_cyclic_log fuel store project_path f t u :
  f ∈ store →
  startswith (lf_stem f) "agent-" = false →
  latest_terminal_of (records_of f) = Some t →
  get_truthy (uuid t) = Some u →
  leads_into_cycle (by_uuid_of (records_of f)) u →
  get_all_conversations home netloc_path normalize_path fuel store project_path
  = OutOfFuel
  ∧ (∀ limit, recent home netloc_path normalize_path fuel limit store project_path
              = OutOfFuel)
  ∧ copy_last_message home netloc_path normalize_path fuel store project_path = OutOfFuel
  ∧ (∀ py_lower keyword,
       search_results home netloc_path normalize_path py_lower fuel store keyword
         project_path = OutOfFuel).
Proof.
  intros Hf Hagent Ht Hu Hcycle.
  assert (scan_ fuel store project_path = OutOfFuel) as Hscan.
  { apply (scan_cycle _ _ _ f); [done..|].
    by apply (parse_conversation_cycle _ _ _ _ _ _ t u). }
  assert (get_all_conversations home netloc_path normalize_path fuel store project_path
          = OutOfFuel) as Hall.
  { unfold get_all_conversations. by rewrite Hscan. }
  split_and!; [done| | |].
  - intros limit. unfold recent. by rewrite Hall.
  - unfold copy_last_message. by rewrite Hall.
  - intros py_lower keyword. unfold search_results. by rewrite Hscan.
Qed.
End listing_facts.

(** ** Search *)

(** ** Substrings *)

Lemma lower_take_str n s : lower (take_str n s) = take_str n (lower s).
Proof.
  revert s. induction n as [|n IH]; intros [|c s]; simpl; try done. by rewrite IH.
Qed.

Lemma lower_drop_str n s : lower (drop_str n s) = drop_str n (lower s).
Proof. revert s. induction n as [|n IH]; intros [|c s]; simpl; try done. Qed.

Lemma length_drop_str n s : String.length (drop_str n s) = String.length s - n.
Proof. revert s. induction n as [|n IH]; intros [|c s]; simpl; try done. Qed.

Lemma prefix_length p s : String.prefix p s = true → String.length p ≤ String.length s.
Proof.
  revert s. induction p as [|c p IH]; intros [|d s]; simpl; try done; try lia.
  destruct (ascii_dec c d); [|done]. intros H%IH. lia.
Qed.

Lemma prefix_take_str p s n :
  String.prefix p s = true → String.length p ≤ n → String.prefix p (take_str n s) = true.
Proof.
  revert s n. induction p as [|c p IH]; intros [|d s] [|n]; simpl; try done; try lia.
  destruct (ascii_dec c d); [|done]. intros H Hn. apply IH; [done|lia].
Qed.

Lemma find_from_Some needle s i j :
  find_from needle s i = Some j →
  ∃ k, j = i + k ∧ k ≤ String.length s ∧ String.prefix needle (drop_str k s) = true.
Proof.
  revert i. induction s as [|c s IH]; intros i; cbn [find_from].
  - destruct (String.prefix needle "") eqn:E; [|done]. intros [= <-]. exists 0.
    by rewrite Nat.add_0_r.
  - destruct (String.prefix needle (String c s)) eqn:E.
    + intros [= <-]. exists 0. rewrite Nat.add_0_r. split_and!; [done|simpl; lia|done].
    + intros (k & -> & Hle & Hk)%IH. exists (S k). split_and!; [lia|simpl; lia|done].
Qed.

Lemma find_from_is_Some needle s i k :
  String.prefix needle (drop_str k s) = true → is_Some (find_from needle s i).
Proof.
  revert s i. induction k as [|k IH]; intros s i Hk.
  - assert (drop_str 0 s = s) as E by by destruct s. rewrite E in Hk.
    destruct s; cbn [find_from]; rewrite Hk; by eexists.
  - destruct s as [|c s]; cbn [find_from].
    + change (String.prefix needle "" = true) in Hk. rewrite Hk. by eexists.
    + destruct (String.prefix needle (String c s)); [by eexists|]. by apply IH.
Qed.

Lemma drop_take_str a n s : drop_str a (take_str (a + n) s) = take_str n (drop_str a s).
Proof.
  revert s. induction a as [|a IH]; intros s; simpl.
  - by destruct (take_str n s), s.
  - destruct s as [|c s]; simpl; [by destruct n|]. apply IH.
Qed.

Lemma drop_drop_str a b s : drop_str a (drop_str b s) = drop_str (b + a) s.
Proof.
  revert s. induction b as [|b IH]; intros s; simpl.
  - by destruct s.
  - destruct s as [|c s]; [by destruct a|]. apply IH.
Qed.

Lemma take_str_all n s : String.length s ≤ n → take_str n s = s.
Proof.
  revert s. induction n as [|n IH]; intros [|c s]; simpl; try done; try lia.
  intros H. rewrite IH; [done|lia].
Qed.

Lemma lowers_in_place_length py_lower s :
  lowers_in_place py_lower s → String.length (py_lower s) ≤ String.length s.
Proof.
  intros H. specialize (H 0 (String.length s)). unfold slice in H.
  rewrite Nat.sub_0_r in H.
  assert (drop_str 0 s = s) as E by by destruct s.
  assert (drop_str 0 (py_lower s) = py_lower s) as E' by by destruct (py_lower s).
  rewrite E, E', take_str_all in H by done.
  rewrite H at 1. apply length_take_str.
Qed.

Lemma lower_in_place s : lowers_in_place lower s.
Proof. intros a b. unfold slice. by rewrite lower_take_str, lower_drop_str. Qed.

(** X21.  A message matches a keyword exactly when its lowered text
    holds the lowered keyword; the match then carries the 1-based number of
    the message and its role, and its snippet is, between two ellipses, a
    slice of the text of at most 100 characters more than the keyword.
    When lowering leaves the characters of the text and of the keyword in
    place, as it does for ASCII, that slice holds the keyword, letter case
    apart. *)
Theorem search_message_snippet py_lower keyword i msg :
  (is_Some (search_message py_lower keyword i msg)
   ↔ contains (py_lower (text msg)) (py_lower keyword) = true)
  ∧ ∀ m, search_message py_lower keyword i msg = Some m →
         msg_num m = i + 1 ∧ match_role m = turn_role msg
         ∧ ∃ a b, snippet m = "..." +:+ slice a b (text msg) +:+ "..."
                  ∧ String.length (slice a b (text msg)) ≤ String.length keyword + 100
                  ∧ (lowers_in_place py_lower (text msg) →
                     lowers_in_place py_lower keyword →
                     contains (py_lower (slice a b (text msg))) (py_lower keyword) = true).
Proof.
  unfold search_message, contains. split.
  - rewrite bool_decide_eq_true.
    destruct (find (py_lower (text msg)) (py_lower keyword)).
    + split; intros _; by eexists.
    + split; intros [? ?]; done.
  - intros m.
    destruct (find (py_lower (text msg)) (py_lower keyword)) as [idx|] eqn:Hfind; [|done].
    intros [= <-]. cbn [msg_num match_role snippet]. split_and!; [done..|].
    apply find_from_Some in Hfind as (k & -> & Hkle & Hk).
    rewrite Nat.add_0_l.
    exists (k - 50), (String.length (text msg) `min` (k + String.length keyword + 50)).
    split; [done|].
    pose proof (prefix_length _ _ Hk) as Hlen. rewrite length_drop_str in Hlen.
    split.
    + unfold slice.
      pose proof (length_take_str
                    (String.length (text msg) `min` (k + String.length keyword + 50)
                     - (k - 50)) (drop_str (k - 50) (text msg))) as Hle.
      lia.
    + intros Htext Hkw.
      pose proof (lowers_in_place_length _ _ Htext) as Htl.
      pose proof (lowers_in_place_length _ _ Hkw) as Hkl.
      rewrite Htext. unfold slice.
      apply bool_decide_eq_true.
      apply (find_from_is_Some _ _ 0 (k - (k - 50))).
      replace (String.length (text msg) `min` (k + String.length keyword + 50) - (k - 50))
        with ((k - (k - 50))
              + (String.length (text msg) `min` (k + String.length keyword + 50) - k))
        by lia.
      rewrite drop_take_str, drop_drop_str.
      replace (k - 50 + (k - (k - 50))) with k by lia.
      apply prefix_take_str; [done|]. lia.
Qed.

(** ** Copy-last *)

Lemma head_filter_reverse {A} (P : A → Prop) `{!∀ x, Decision (P x)} (l : list A) m :
  head (filter P (reverse l)) = Some m
  ↔ ∃ pre post, l = pre ++ m :: post ∧ P m ∧ Forall (λ x, ¬ P x) post.
Proof.
  induction l as [|x l IH] using rev_ind.
  - split; [done|]. intros (pre & post & E & _). by destruct pre.
  - rewrite reverse_app. simpl. rewrite filter_cons. case_decide as Hx.
    + simpl. split.
      * intros [= ->]. exists l, []. by split_and!.
      * intros (pre & post & E & Hm & Hpost).
        destruct post as [|y post _] using rev_ind.
        -- apply app_inj_tail in E as [_ ->]. done.
        -- rewrite app_comm_cons, app_assoc in E. apply app_inj_tail in E as [_ ->].
           apply Forall_app in Hpost as [_ Hy]. rewrite Forall_singleton in Hy.
           by destruct Hy.
    + rewrite IH. split.
      * intros (pre & post & -> & Hm & Hpost). exists pre, (post ++ [x]).
        rewrite <-app_assoc. split_and!; [done..|].
        apply Forall_app. split; [done|by apply Forall_singleton].
      * intros (pre & post & E & Hm & Hpost).
        destruct post as [|y post _] using rev_ind.
        -- apply app_inj_tail in E as [_ ->]. done.
        -- rewrite app_comm_cons, app_assoc in E. apply app_inj_tail in E as [-> ->].
           exists pre, post. split_and!; [done..|]. by apply Forall_app in Hpost as [? _].
Qed.

(** X22.  Copy-last reports no conversation exactly when the listing is
    empty; it copies a text exactly when the last assistant turn of the
    first conversation has that text and the text is not empty; and when
    the last assistant turn has an empty text (a turn of tools only) it
    reports that there is no assistant message, whatever the earlier
    turns hold. *)
Theorem copy_last_choice_spec conversations :
  (copy_last_choice conversations = NoConversations ↔ conversations = [])
  ∧ (∀ t, copy_last_choice conversations = Copy t
          ↔ ∃ conv rest pre m post,
              conversations = conv :: rest
              ∧ messages conv = pre ++ m :: post
              ∧ turn_role m = RoleAssistant
              ∧ Forall (λ x, turn_role x ≠ RoleAssistant) post
              ∧ text m = t ∧ t ≠ "")
  ∧ (∀ conv rest pre m post,
       conversations = conv :: rest →
       messages conv = pre ++ m :: post →
       turn_role m = RoleAssistant →
       Forall (λ x, turn_role x ≠ RoleAssistant) post →
       text m = "" →
       copy_last_choice conversations = NoAssistantMessage).
Proof.
  unfold copy_last_choice, last_assistant_msg. split_and!.
  - destruct conversations as [|conv rest]; [done|].
    destruct (get_truthy _); done.
  - intros t. destruct conversations as [|conv rest].
    { split; [done|]. by intros (? & ? & ? & ? & ? & ? & _). }
    destruct (head _) as [m|] eqn:Hhead; simpl.
    + apply head_filter_reverse in Hhead as (pre & post & E & Hm & Hpost).
      case_decide as Ht; split; try done.
      * intros (c & r & pre' & m' & post' & [= <- <-] & E' & Hm' & Hpost' & Htext & Hne).
        assert (head (filter (λ x, turn_role x = RoleAssistant) (reverse (messages conv)))
                = Some m') as H' by (apply head_filter_reverse; eauto 6).
        assert (head (filter (λ x, turn_role x = RoleAssistant) (reverse (messages conv)))
                = Some m) as H by (apply head_filter_reverse; eauto 6).
        congruence.
      * intros [= <-]. by exists conv, rest, pre, m, post.
      * intros (c & r & pre' & m' & post' & [= <- <-] & E' & Hm' & Hpost' & Htext & Hne).
        assert (head (filter (λ x, turn_role x = RoleAssistant) (reverse (messages conv)))
                = Some m') as H' by (apply head_filter_reverse; eauto 6).
        assert (head (filter (λ x, turn_role x = RoleAssistant) (reverse (messages conv)))
                = Some m) as H by (apply head_filter_reverse; eauto 6).
        congruence.
    + split; [done|].
      intros (c & r & pre' & m' & post' & [= <- <-] & E' & Hm' & Hpost' & Htext & Hne).
      assert (head (filter (λ x, turn_role x = RoleAssistant) (reverse (messages conv)))
              = Some m') as H' by (apply head_filter_reverse; eauto 6).
      congruence.
  - intros conv rest pre m post -> E Hm Hpost Htext.
    assert (head (filter (λ x, turn_role x = RoleAssistant) (reverse (messages conv)))
            = Some m) as -> by (apply head_filter_reverse; eauto 6).
    simpl. by rewrite Htext.
Qed.

(** ** The default output path *)

Lemma count_replace_char a b s : a ≠ b → count_char a (replace_char a b s) = 0.
Proof.
  intros Hab. induction s as [|c s IH]; simpl; [done|].
  rewrite IH. repeat case_decide; simplify_eq; done.
Qed.

Lemma count_replace_char_other a b c s :
  c ≠ b → count_char c s = 0 → count_char c (replace_char a b s) = 0.
Proof.
  intros Hcb. induction s as [|d s IH]; simpl; [done|].
  intros Hc. repeat case_decide; simplify_eq; try lia; apply IH; lia.
Qed.

Lemma length_replace_char a b s : String.length (replace_char a b s) = String.length s.
Proof. induction s as [|c s IH]; simpl; [done|by rewrite IH]. Qed.

(** X17.  There is a default output path exactly when the conversation
    has a last timestamp that parses; the path is then "conversation-",
    the date, "-", a title and ".md", where the title is as long as the
    first 30 characters of the first message and holds neither a slash nor
    a space. *)
Theorem default_output_path_shape iso_yyyymmdd conv :
  (default_output_path iso_yyyymmdd conv = None
   ↔ conv_last_timestamp conv ≫= iso_yyyymmdd = None)
  ∧ ∀ path, default_output_path iso_yyyymmdd conv = Some path →
      ∃ ts dt title,
        conv_last_timestamp conv = Some ts ∧ iso_yyyymmdd ts = Some dt
        ∧ path = "conversation-" +:+ dt +:+ "-" +:+ title +:+ ".md"
        ∧ String.length title = String.length (first_message conv) `min` 30
        ∧ count_char "/" title = 0 ∧ count_char " " title = 0.
Proof.
  unfold default_output_path.
  destruct (conv_last_timestamp conv) as [ts|]; cbn [mbind option_bind]; [|by split].
  destruct (iso_yyyymmdd ts) as [dt|] eqn:Hdt; cbn [mbind option_bind]; [|by split].
  split; [done|]. intros path Hpath. exists ts, dt.
  exists (replace_char " " "-" (replace_char "/" "-" (take_str 30 (first_message conv)))).
  split_and!; [done|done|congruence| | |].
  - rewrite !length_replace_char.
    generalize (first_message conv). generalize 30.
    induction n as [|n IH]; intros [|c s]; simpl; rewrite ?IH; lia.
  - apply count_replace_char_other; [done|]. by apply count_replace_char.
  - by apply count_replace_char.
Qed.

(** ** The winning path and the export *)


Section export_outcomes.
Context (home : string) (netloc_path : string → string).
Context (path_suffix : string → string) (iso_yyyymmdd : string → option string).
Context (writable : string → bool).

Local Abbreviation selected_ :=
  (export_selected home netloc_path path_suffix iso_yyyymmdd writable).

(** The output path of an export: the one given, or the default one. *)
Local Abbreviation chosen_path output_path conv p :=
  (get_truthy output_path = Some p
   ∨ (get_truthy output_path = None
      ∧ default_output_path iso_yyyymmdd conv = Some p)).

End export_outcomes.

(** ** The project flag *)

Lemma list_find_flag_absent (args : list string) :
  "--project" ∉ args → list_find (λ a, a = "--project") args = None.
Proof. intros H. apply list_find_None, Forall_forall. intros a Ha ->. done. Qed.

Lemma list_find_flag_first (pre post : list string) :
  "--project" ∉ pre →
  list_find (λ a, a = "--project") (pre ++ "--project" :: post)
  = Some (length pre, "--project").
Proof.
  intros H. rewrite list_find_app_r by by apply list_find_flag_absent.
  cbn. done.
Qed.

(** X23.  Without the flag, the arguments are unchanged and there is no
    project path; with the flag followed by a value, the project path is
    the value normalized and the flag and the value are removed from the
    arguments, the others staying in order; with the flag last, [main]
    exits. *)
Theorem parse_project_flag_cases normalize_path pre value post :
  "--project" ∉ pre →
  parse_project_flag normalize_path pre = Some (None, pre)
  ∧ parse_project_flag normalize_path (pre ++ "--project" :: value :: post)
    = Some (Some (normalize_path value), pre ++ post)
  ∧ parse_project_flag normalize_path (pre ++ ["--project"]) = None.
Proof.
  intros Hpre. unfold parse_project_flag. split_and!.
  - by rewrite list_find_flag_absent.
  - rewrite list_find_flag_first by done.
    rewrite lookup_app_r by lia.
    replace (length pre + 1 - length pre) with 1 by lia. simpl.
    rewrite take_app_length.
    rewrite drop_app_ge by lia.
    replace (length pre + 2 - length pre) with 2 by lia. done.
  - rewrite list_find_flag_first by done.
    rewrite lookup_app_r by lia.
    replace (length pre + 1 - length pre) with 1 by lia. done.
Qed.

(** ** Enrichment of an assistant turn *)

Section enrichment_facts.
Context (home : string) (netloc_path : string → string) (asks : AskState).

Local Abbreviation part_annotation_ := (part_annotation home netloc_path).
Local Abbreviation part_question_ := (part_question asks).

Lemma get_truthy_annotation name inp :
  get_truthy (generate_tool_annotation home netloc_path name inp)
  = generate_tool_annotation home netloc_path name inp.
Proof.
  destruct (generate_tool_annotation home netloc_path name inp) as [ann|] eqn:E; [|done].
  destruct (generate_tool_annotation_spec home netloc_path name inp) as [_ H].
  destruct (H ann E) as [Hne _]. simpl. by rewrite decide_False.
Qed.

Lemma enrich_part_spec st p :
  enrich_part home netloc_path asks st p
  = {| e_text_parts :=
         e_text_parts st ++ option_list (match p with PText t => Some t | _ => None end);
       e_tool_annotations := e_tool_annotations st ++ option_list (part_annotation_ p);
       e_question_answers := e_question_answers st ++ option_list (part_question_ p);
       e_write_contents := e_write_contents st ++ option_list (part_write p) |}.
Proof.
  destruct st, p; simpl; rewrite ?app_nil_r; try done.
  rewrite get_truthy_annotation. by repeat case_decide.
Qed.

Lemma enrich_parts_spec parts st :
  foldl (enrich_part home netloc_path asks) st parts
  = {| e_text_parts :=
         e_text_parts st ++ omap (λ p, match p with PText t => Some t | _ => None end) parts;
       e_tool_annotations := e_tool_annotations st ++ omap part_annotation_ parts;
       e_question_answers := e_question_answers st ++ omap part_question_ parts;
       e_write_contents := e_write_contents st ++ omap part_write parts |}.
Proof.
  revert st. induction parts as [|p parts IH]; intros st.
  - simpl. rewrite !app_nil_r. by destruct st.
  - cbn [foldl]. rewrite IH, enrich_part_spec. cbn [e_text_parts e_tool_annotations
      e_question_answers e_write_contents]. rewrite <-!app_assoc.
    f_equal; f_equal.
    + by destruct p.
    + cbn [omap list_omap]. by destruct (part_annotation_ p).
    + cbn [omap list_omap]. by destruct (part_question_ p).
    + cbn [omap list_omap]. by destruct (part_write p).
Qed.

Lemma enrich_record_spec st rec :
  enrich_record home netloc_path asks st rec
  = {| e_text_parts := e_text_parts st ++ record_texts rec;
       e_tool_annotations := e_tool_annotations st ++ omap part_annotation_ (record_parts rec);
       e_question_answers := e_question_answers st ++ omap part_question_ (record_parts rec);
       e_write_contents := e_write_contents st ++ omap part_write (record_parts rec) |}.
Proof.
  unfold enrich_record, record_texts, record_parts.
  destruct (message rec) as [[r [s|parts|]]|]; simpl; rewrite ?app_nil_r;
    try by destruct st.
  apply enrich_parts_spec.
Qed.

Lemma enrich_records_spec records st :
  foldl (enrich_record home netloc_path asks) st records
  = {| e_text_parts := e_text_parts st ++ concat (map record_texts records);
       e_tool_annotations :=
         e_tool_annotations st ++ omap part_annotation_ (concat (map record_parts records));
       e_question_answers :=
         e_question_answers st ++ omap part_question_ (concat (map record_parts records));
       e_write_contents :=
         e_write_contents st ++ omap part_write (concat (map record_parts records)) |}.
Proof.
  revert st. induction records as [|rec records IH]; intros st.
  - simpl. rewrite !app_nil_r. by destruct st.
  - cbn [foldl map concat]. rewrite IH, enrich_record_spec. cbn [e_text_parts
      e_tool_annotations e_question_answers e_write_contents].
    by rewrite !omap_app, <-!app_assoc.
Qed.

(** X9.  An assistant turn that is kept is put together from the parts
    of its records, in order: its text is the non-blank texts joined by
    blank lines, its timestamp is that of its first record, and it has one
    annotation per tool invocation that is not a question, one Q&A block
    per question, one snapshot per file-write whose content is captured. *)
Theorem assistant_turn_enrichment records m :
  assistant_turn home netloc_path asks records = Some m →
  turn_role m = RoleAssistant
  ∧ text m = join (nl +:+ nl)
               (filter (λ t, strip t ≠ "") (concat (map record_texts records)))
  ∧ turn_timestamp m = head records ≫= timestamp
  ∧ tool_annotations m = omap part_annotation_ (concat (map record_parts records))
  ∧ question_answers m = omap part_question_ (concat (map record_parts records))
  ∧ write_contents m = omap part_write (concat (map record_parts records)).
Proof.
  unfold assistant_turn. rewrite enrich_records_spec.
  cbn [e_text_parts e_tool_annotations e_question_answers e_write_contents app].
  destruct (_ || _ || _); [|done]. by intros [= <-].
Qed.
End enrichment_facts.

(** X8.  A log with no line that deserializes gives no conversation, and
    so does a log in which every record is meta or has no message. *)
Theorem parse_conversation_without_messages home netloc_path fuel path stem lines :
  (omap id lines = [] →
   parse_conversation home netloc_path fuel path stem lines = Done None)
  ∧ (Forall (λ r, message r = None ∨ isMeta r = true) (omap id lines) →
     ∀ conv, parse_conversation home netloc_path fuel path stem lines ≠ Done (Some conv)).
Proof.
  destruct (load_spec lines) as (Hrecs & _). unfold parse_conversation.
  destruct (load lines) as [scalars all_records]. simpl in Hrecs. subst all_records.
  split.
  - by intros ->.
  - intros Hall conv. destruct (omap id lines) as [|r recs] eqn:E; [done|].
    destruct (find_winning_path fuel (r :: recs)) as [|winning]; [done|].
    assert (raw_records_of winning (r :: recs) = []) as ->; [|done].
    unfold raw_records_of. apply filter_nil_Forall.
    eapply Forall_impl; [exact Hall|]. intros x [Hx|Hx]; unfold kept; rewrite Hx; [done|].
    by destruct (message x).
Qed.

(** ** Instances on the sample data *)


Lemma parse_conversation_summary_witness :
  ∃ conv,
    parse_conversation "/home/u" (λ u, u) 3 "/p/abc-1.jsonl" "abc-1" session_lines
    = Done (Some conv)
    ∧ first_message conv = "fix bug"
    ∧ user_messages conv ≤ message_count conv.
Proof.
  eexists. split; [vm_compute; reflexivity|]. split; [reflexivity|].
  eapply (parse_conversation_summary "/home/u" (λ u, u) 3 "/p/abc-1.jsonl" "abc-1"
            session_lines).
  vm_compute. reflexivity.
Defined.

Lemma assistant_turn_enrichment_witness :
  match assistant_turn "/home/u" (λ u, u) (collect_asks [tool_only_record])
          [tool_only_record] with
  | Some m =>
      text m = "" ∧ tool_annotations m = ["Wrote: ~/notes.txt"]
      ∧ length (write_contents m) = 1
  | None => False
  end.
Proof.
  destruct (assistant_turn "/home/u" (λ u, u) (collect_asks [tool_only_record])
              [tool_only_record]) as [m|] eqn:E.
  - destruct (assistant_turn_enrichment "/home/u" (λ u, u)
                (collect_asks [tool_only_record]) [tool_only_record] m E)
      as (_ & Htext & _ & Hann & _ & Hwrite).
    rewrite Htext, Hann, Hwrite. split_and!; vm_compute; reflexivity.
  - vm_compute in E. discriminate.
Defined.

Lemma parse_ask_answer_reads_answers_witness :
  parse_ask_answer
    (RStr (answered_text [("Which colour?", " Red "); ("Which size?", "Large")]
             ". You can now continue."))
  = Some "Red; Large".
Proof.
  apply (parse_ask_answer_reads_answers
           [("Which colour?", " Red "); ("Which size?", "Large")]
           ". You can now continue.").
  - discriminate.
  - repeat constructor.
  - reflexivity.
Defined.

Lemma parse_ask_answer_declined_witness :
  ∃ a, parse_ask_answer (RStr "The user doesn't want to proceed with this tool use.")
       = Some a
       ∧ a ≠ ""
       ∧ (find (lower "The user doesn't want to proceed with this tool use.")
            "the user said:" = None →
          a = "[User requested clarification]").
Proof.
  apply (parse_ask_answer_declined
           (RStr "The user doesn't want to proceed with this tool use.")
           "The user doesn't want to proceed with this tool use.").
  - reflexivity.
  - left. vm_compute. reflexivity.
  - left. vm_compute. reflexivity.
Defined.





Lemma listing_hangs_on_cyclic_log_witness :
  get_all_conversations "/home/u" (λ u, u) (λ p, p) 1000 (sample_store ++ [cyclic_file]) None
  = OutOfFuel.
Proof.
  destruct (listing_hangs_on_cyclic_log "/home/u" (λ u, u) (λ p, p) 1000
              (sample_store ++ [cyclic_file]) None cyclic_file
              (node (Some "t") (Some "a") (Some "2024-01-01T10:02:00Z")) "t")
    as (Hall & _); [..|exact Hall].
  - apply elem_of_app. right. apply list_elem_of_here.
  - reflexivity.
  - vm_compute. reflexivity.
  - reflexivity.
  - exists "a". split.
    + apply rtc_once. eexists. split; [vm_compute; reflexivity|reflexivity].
    + eapply tc_l; [|apply tc_once].
      * eexists. split; [vm_compute; reflexivity|reflexivity].
      * eexists. split; [vm_compute; reflexivity|reflexivity].
Defined.

Lemma search_message_snippet_witness :
  ∃ m a b,
    search_message lower "BUG" 0 (said "please fix the bug today") = Some m
    ∧ snippet m = "..." +:+ slice a b "please fix the bug today" +:+ "..."
    ∧ contains (lower (slice a b "please fix the bug today")) (lower "BUG") = true.
Proof.
  destruct (search_message_snippet lower "BUG" 0 (said "please fix the bug today"))
    as [_ Hm].
  destruct (search_message lower "BUG" 0 (said "please fix the bug today"))
    as [m|] eqn:E; [|vm_compute in E; discriminate].
  destruct (Hm m eq_refl) as (_ & _ & a & b & Hsnip & _ & Hcontains).
  exists m, a, b. split_and!; [done..|].
  apply Hcontains; apply lower_in_place.
Defined.

Lemma parse_project_flag_cases_witness :
  parse_project_flag (λ p, "/abs/" +:+ p) ["scroll"] = Some (None, ["scroll"])
  ∧ parse_project_flag (λ p, "/abs/" +:+ p) (["scroll"] ++ "--project" :: "proj" :: ["x"])
    = Some (Some ("/abs/" +:+ "proj"), ["scroll"] ++ ["x"])
  ∧ parse_project_flag (λ p, "/abs/" +:+ p) (["scroll"] ++ ["--project"]) = None.
Proof.
  apply (parse_project_flag_cases (λ p, "/abs/" +:+ p) ["scroll"] "proj" ["x"]).
  intros H. apply list_elem_of_singleton in H. discriminate.
Defined.
